(** * rjson: the JSON tree builder and the serializer of src/program.cpp

    The program reads a JSON document through yajl's callback interface,
    builds a [json_data] tree with an explicit stack of insertion targets
    ([json_data_state]) and renders the tree back with [generate_json].

    Modelling choices.
    - [json_data] is the tagged union of the source; a [std::list] is a
      Rocq list, a [std::unordered_map] an association list with unique keys
      whose order stands for the (unspecified) bucket order.
    - A [json_data*] handle into the tree is a [path] from the root: a list of
      selectors, an element index for a [std::list] and a key for a
      [std::unordered_map].  Both containers are node-stable and only grow,
      so a path stays valid exactly as the pointer does.
    - A callback returning 0 makes yajl cancel the parse; a step of the
      builder therefore ends in [Continue] (callback returned 1), [Cancel]
      (callback returned 0) or [Undefined] (the callback has undefined
      behaviour, e.g. [std::stack::pop] on an empty stack). *)

From Stdlib Require Import List String ZArith Bool Arith Lia.
From Stdlib Require Import PrimFloat.
From Stdlib Require Import Permutation.
Import ListNotations.
Open Scope string_scope.
Open Scope list_scope.
Set Warnings "-register-all".

(** ** Data model: [enum json_type] and [struct json_data] *)

Inductive json_type :=
| json_type_null
| json_type_boolean
| json_type_integer
| json_type_real
| json_type_string
| json_type_map
| json_type_array.

Inductive json_data :=
| JNull
| JBoolean (boolean : bool)
| JInteger (integer : Z)
| JReal (real : float)
| JString (string : String.string)
| JMap (map : list (String.string * json_data))
| JArray (array : list json_data).

(** The [type] field of a [json_data]. *)
Definition type (d : json_data) : json_type :=
  match d with
  | JNull => json_type_null
  | JBoolean _ => json_type_boolean
  | JInteger _ => json_type_integer
  | JReal _ => json_type_real
  | JString _ => json_type_string
  | JMap _ => json_type_map
  | JArray _ => json_type_array
  end.

(** The constructor [json_data(json_type t)]: a default payload per tag. *)
Definition json_data_of_type (t : json_type) : json_data :=
  match t with
  | json_type_null => JNull
  | json_type_boolean => JBoolean false
  | json_type_integer => JInteger 0
  | json_type_real => JReal PrimFloat.zero
  | json_type_string => JString ""
  | json_type_map => JMap []
  | json_type_array => JArray []
  end.

Definition is_container (d : json_data) : bool :=
  match type d with
  | json_type_map | json_type_array => true
  | _ => false
  end.

(** ** [std::unordered_map<std::string, json_data>] *)

Fixpoint map_find (k : String.string) (m : list (String.string * json_data))
  : option json_data :=
  match m with
  | [] => None
  | (k', v) :: m' => if String.eqb k k' then Some v else map_find k m'
  end.

(** [map.emplace(key, v)]: inserts only when [key] is absent; an existing
    member is left as it is.  The list keeps members in insertion order; a
    [std::unordered_map] iterates in an order of its own, so no statement
    below depends on the order of an Object's members. *)
Definition map_emplace (k : String.string) (v : json_data)
  (m : list (String.string * json_data)) : list (String.string * json_data) :=
  match map_find k m with
  | Some _ => m
  | None => m ++ [(k, v)]
  end.

(** Mutation of the member stored under [k] (through a pointer to it). *)
Fixpoint map_update (k : String.string) (g : json_data -> json_data)
  (m : list (String.string * json_data)) : list (String.string * json_data) :=
  match m with
  | [] => []
  | (k', v) :: m' =>
      if String.eqb k k' then (k', g v) :: m' else (k', v) :: map_update k g m'
  end.

(** Mutation of the element at position [i] of a [std::list]. *)
Fixpoint list_update (i : nat) (g : json_data -> json_data) (l : list json_data)
  : list json_data :=
  match l, i with
  | [], _ => []
  | x :: l', 0 => g x :: l'
  | x :: l', S i' => x :: list_update i' g l'
  end.

(** ** Handles: [json_data*] as a path from the root *)

Inductive selector :=
| SIdx (i : nat)
| SKey (k : String.string).

Definition path := list selector.

Definition child (s : selector) (d : json_data) : option json_data :=
  match s, d with
  | SIdx i, JArray a => nth_error a i
  | SKey k, JMap m => map_find k m
  | _, _ => None
  end.

(** Dereferencing a handle. *)
Fixpoint deref (p : path) (d : json_data) : option json_data :=
  match p with
  | [] => Some d
  | s :: p' =>
      match child s d with
      | Some c => deref p' c
      | None => None
      end
  end.

Definition update_child (s : selector) (g : json_data -> json_data)
  (d : json_data) : json_data :=
  match s, d with
  | SIdx i, JArray a => JArray (list_update i g a)
  | SKey k, JMap m => JMap (map_update k g m)
  | _, _ => d
  end.

(** Mutating the node a handle points to. *)
Fixpoint modify (f : json_data -> json_data) (p : path) (d : json_data)
  : json_data :=
  match p with
  | [] => f d
  | s :: p' => update_child s (modify f p') d
  end.

(** [current->array.emplace_back(v)] *)
Definition array_emplace_back (v : json_data) (d : json_data) : json_data :=
  match d with
  | JArray a => JArray (a ++ [v])
  | _ => d
  end.

(** [current->map.emplace(tempKey, v)] *)
Definition map_emplace_at (k : String.string) (v : json_data) (d : json_data)
  : json_data :=
  match d with
  | JMap m => JMap (map_emplace k v m)
  | _ => d
  end.

(** ** [struct json_data_state] and [json_data_state::insert] *)

Record json_data_state := mk_state {
  stack : list path;            (* [std::stack<json_data*>], top first *)
  tempKey : String.string;
  root : option json_data       (* [json_data *root], [None] for [nullptr] *)
}.

Definition set_root (st : json_data_state) (r : json_data) : json_data_state :=
  mk_state (stack st) (tempKey st) (Some r).

Definition set_stack (st : json_data_state) (s : list path) : json_data_state :=
  mk_state s (tempKey st) (root st).

Definition set_tempKey (st : json_data_state) (k : String.string)
  : json_data_state :=
  mk_state (stack st) k (root st).

(** [json_data_state state = {{}, "", nullptr};] *)
Definition init_state : json_data_state := mk_state [] "" None.

(** [insert(args...)]: [Some (state', handle)] for a non-null return,
    [None] for [nullptr].  The value [v] is the [json_data] that
    [args...] construct.  A handle on the stack always dereferences in
    the states the builder reaches (theorem [C10]); the [None] of a
    failed dereference is never taken there. *)
Definition insert (st : json_data_state) (v : json_data)
  : option (json_data_state * path) :=
  match root st with
  | None => Some (set_root st v, [])
  | Some r =>
      match stack st with
      | [] => None
      | current :: _ =>
          match deref current r with
          | Some (JArray a) =>
              Some (set_root st (modify (array_emplace_back v) current r),
                    current ++ [SIdx (List.length a)])
          | Some (JMap _) =>
              Some (set_root st (modify (map_emplace_at (tempKey st) v) current r),
                    current ++ [SKey (tempKey st)])
          | _ => None
          end
      end
  end.

(** ** The yajl callbacks [reader_cb] *)

(** The events yajl delivers, one per callback. *)
Inductive event :=
| EvNull
| EvBoolean (b : bool)
| EvInteger (i : Z)
| EvDouble (r : float)
| EvString (s : String.string)
| EvStartMap
| EvMapKey (k : String.string)
| EvEndMap
| EvStartArray
| EvEndArray.

Inductive outcome :=
| Continue (st : json_data_state)   (* the callback returned 1 *)
| Cancel                             (* the callback returned 0 *)
| Undefined.                         (* undefined behaviour in the callback *)

(** [return (int) (state->insert(...) != nullptr);] *)
Definition insert_cb (st : json_data_state) (v : json_data) : outcome :=
  match insert st v with
  | Some (st', _) => Continue st'
  | None => Cancel
  end.

(** start map / start array: insert, then [state->stack.push(jdata)]. *)
Definition start_cb (st : json_data_state) (t : json_type) : outcome :=
  match insert st (json_data_of_type t) with
  | Some (st', jdata) => Continue (set_stack st' (jdata :: stack st'))
  | None => Cancel
  end.

(** end map / end array: [state->stack.pop(); return 1;] *)
Definition end_cb (st : json_data_state) : outcome :=
  match stack st with
  | [] => Undefined
  | _ :: s => Continue (set_stack st s)
  end.

Definition step (st : json_data_state) (ev : event) : outcome :=
  match ev with
  | EvNull => insert_cb st (json_data_of_type json_type_null)
  | EvBoolean b => insert_cb st (JBoolean b)
  | EvInteger i => insert_cb st (JInteger i)
  | EvDouble r => insert_cb st (JReal r)
  | EvString s => insert_cb st (JString s)
  | EvStartMap => start_cb st json_type_map
  | EvMapKey k => Continue (set_tempKey st k)
  | EvEndMap => end_cb st
  | EvStartArray => start_cb st json_type_array
  | EvEndArray => end_cb st
  end.

(** yajl stops calling back after the first callback that does not
    return 1. *)
Fixpoint run (st : json_data_state) (evs : list event) : outcome :=
  match evs with
  | [] => Continue st
  | ev :: evs' =>
      match step st ev with
      | Continue st' => run st' evs'
      | o => o
      end
  end.

(** The [json_data] an event that goes through [insert] constructs. *)
Definition event_value (ev : event) : option json_data :=
  match ev with
  | EvNull => Some (json_data_of_type json_type_null)
  | EvBoolean b => Some (JBoolean b)
  | EvInteger i => Some (JInteger i)
  | EvDouble r => Some (JReal r)
  | EvString s => Some (JString s)
  | EvStartMap => Some (json_data_of_type json_type_map)
  | EvStartArray => Some (json_data_of_type json_type_array)
  | _ => None
  end.

Definition is_scalar_event (ev : event) : bool :=
  match ev with
  | EvNull | EvBoolean _ | EvInteger _ | EvDouble _ | EvString _ => true
  | _ => false
  end.

Definition is_begin_event (ev : event) : bool :=
  match ev with
  | EvStartMap | EvStartArray => true
  | _ => false
  end.

(** The member an insertion would hit: the value already stored under
    [tempKey] in the Object on top of the stack, if there is one. *)
Definition existing_member (st : json_data_state) : option json_data :=
  match root st, stack st with
  | Some r, current :: _ =>
      match deref current r with
      | Some (JMap m) => map_find (tempKey st) m
      | _ => None
      end
  | _, _ => None
  end.

(** ** The serializer [generate_json] *)

(** [yajl_gen_status], as declared by the vendored yajl generator. *)
Inductive yajl_gen_status :=
| yajl_gen_status_ok
| yajl_gen_keys_must_be_strings
| yajl_max_depth_exceeded
| yajl_gen_in_error_state
| yajl_gen_generation_complete
| yajl_gen_invalid_number
| yajl_gen_no_buf
| yajl_gen_invalid_string.

Definition status_ok (s : yajl_gen_status) : bool :=
  match s with yajl_gen_status_ok => true | _ => false end.

(** The output primitives [generate_json] calls. *)
Inductive gen_token :=
| GNull
| GBool (b : bool)
| GInteger (i : Z)
| GDouble (r : float)
| GString (s : String.string)
| GMapOpen
| GMapClose
| GArrayOpen
| GArrayClose.

Section Generate.

(** The generator handle [yajl_gen gen] and its primitives
    ([yajl_gen_null], [yajl_gen_map_open], ...), one call per token. *)
Variable yajl_gen : Type.
Variable yajl_gen_call : gen_token -> yajl_gen -> yajl_gen_status * yajl_gen.

Fixpoint generate_json (root : json_data) (gen : yajl_gen) {struct root}
  : yajl_gen_status * yajl_gen :=
  match root with
  | JNull => yajl_gen_call GNull gen
  | JBoolean b => yajl_gen_call (GBool b) gen
  | JInteger i => yajl_gen_call (GInteger i) gen
  | JReal r => yajl_gen_call (GDouble r) gen
  | JString s => yajl_gen_call (GString s) gen
  | JMap map =>
      let (status, gen) := yajl_gen_call GMapOpen gen in
      if negb (status_ok status) then (status, gen) else
      (fix members (m : list (String.string * json_data)) (gen : yajl_gen)
         : yajl_gen_status * yajl_gen :=
         match m with
         | [] => yajl_gen_call GMapClose gen
         | (key, item) :: m' =>
             let (status, gen) := yajl_gen_call (GString key) gen in
             if negb (status_ok status) then (status, gen) else
             let (status, gen) := generate_json item gen in
             if negb (status_ok status) then (status, gen) else
             members m' gen
         end) map gen
  | JArray array =>
      let (status, gen) := yajl_gen_call GArrayOpen gen in
      if negb (status_ok status) then (status, gen) else
      (fix items (l : list json_data) (gen : yajl_gen)
         : yajl_gen_status * yajl_gen :=
         match l with
         | [] => yajl_gen_call GArrayClose gen
         | item :: l' =>
             let (status, gen) := generate_json item gen in
             if negb (status_ok status) then (status, gen) else
             items l' gen
         end) array gen
  end.

End Generate.

(** Modelled from the spec: the yajl generator primitives (the encoder of
    JSonParser/, not under src/).  The spec makes the encoder an external
    collaborator that turns each primitive into output text; here each call
    appends its token to the output buffer and returns
    [yajl_gen_status_ok]. *)
Definition yajl_gen_spec_call (t : gen_token) (buf : list gen_token)
  : yajl_gen_status * list gen_token :=
  (yajl_gen_status_ok, buf ++ [t]).

Definition generate_json_spec (root : json_data) (buf : list gen_token)
  : yajl_gen_status * list gen_token :=
  generate_json (list gen_token) yajl_gen_spec_call root buf.

(** The native call depth of [generate_json]: one frame for the call on
    [root], plus the deepest of the nested calls it makes, one per member
    or element (all of them are made when the primitives succeed). *)
Fixpoint generate_json_frames (root : json_data) : nat :=
  match root with
  | JMap map =>
      S ((fix members (m : list (String.string * json_data)) : nat :=
            match m with
            | [] => 0
            | (_, item) :: m' => Nat.max (generate_json_frames item) (members m')
            end) map)
  | JArray array =>
      S ((fix items (l : list json_data) : nat :=
            match l with
            | [] => 0
            | item :: l' => Nat.max (generate_json_frames item) (items l')
            end) array)
  | _ => 1
  end.

(** The token sequence of a tree, members and elements in stored order. *)
Fixpoint render (d : json_data) : list gen_token :=
  match d with
  | JNull => [GNull]
  | JBoolean b => [GBool b]
  | JInteger i => [GInteger i]
  | JReal r => [GDouble r]
  | JString s => [GString s]
  | JMap m =>
      GMapOpen :: flat_map (fun '(k, v) => GString k :: render v) m ++ [GMapClose]
  | JArray a => GArrayOpen :: flat_map render a ++ [GArrayClose]
  end.

(** An Array nested [n] levels deep around an empty Array. *)
Fixpoint nested_array (n : nat) : json_data :=
  match n with
  | 0 => JArray []
  | S n' => JArray [nested_array n']
  end.

(** ** Reachable builder states *)

Inductive reachable : json_data_state -> Prop :=
| reachable_init : reachable init_state
| reachable_step st ev st' :
    reachable st -> step st ev = Continue st' -> reachable st'.

(** States reached without ever starting a container under a key that is
    already present in the Object on top of the stack. *)
Inductive reachable_fresh : json_data_state -> Prop :=
| reachable_fresh_init : reachable_fresh init_state
| reachable_fresh_step st ev st' :
    reachable_fresh st ->
    (is_begin_event ev = true -> existing_member st = None) ->
    step st ev = Continue st' -> reachable_fresh st'.

(** The event sequences used below. *)
Definition ev_dup_keys : list event :=
  [EvStartMap; EvMapKey "k"; EvInteger 1; EvMapKey "k"; EvInteger 2; EvEndMap].

Definition ev_dup_container : list event :=
  [EvStartMap; EvMapKey "k"; EvInteger 1; EvMapKey "k"; EvStartArray].

Definition ev_mismatched_end : list event := [EvStartMap; EvEndArray].

Definition ev_key_reused : list event := [EvStartMap; EvMapKey "a"; EvInteger 1].

(** [{"k":[1],"k":[2]}] *)
Definition ev_merge_arrays : list event :=
  [EvStartMap; EvMapKey "k"; EvStartArray; EvInteger 1; EvEndArray;
   EvMapKey "k"; EvStartArray; EvInteger 2; EvEndArray; EvEndMap].

(** ** The primitives [generate_json] issues *)

(** Issuing a sequence of generator primitives in order, stopping at the
    first one whose status is not [yajl_gen_status_ok] and returning that
    status. *)
Fixpoint emit_all {G : Type} (call : gen_token -> G -> yajl_gen_status * G)
  (ts : list gen_token) (gen : G) : yajl_gen_status * G :=
  match ts with
  | [] => (yajl_gen_status_ok, gen)
  | t :: ts' =>
      let (status, gen) := call t gen in
      if negb (status_ok status) then (status, gen) else emit_all call ts' gen
  end.

(** ** The events yajl delivers for a document *)

(** The callback sequence yajl makes when it parses the text of [d]: a map
    key callback before each member, start and end callbacks around each
    container, members and elements in their stored order. *)
Fixpoint tree_events (d : json_data) : list event :=
  match d with
  | JNull => [EvNull]
  | JBoolean b => [EvBoolean b]
  | JInteger i => [EvInteger i]
  | JReal r => [EvDouble r]
  | JString s => [EvString s]
  | JMap m =>
      EvStartMap :: flat_map (fun '(k, v) => EvMapKey k :: tree_events v) m
                 ++ [EvEndMap]
  | JArray a => EvStartArray :: flat_map tree_events a ++ [EvEndArray]
  end.

Fixpoint keys_nodup (ks : list String.string) : bool :=
  match ks with
  | [] => true
  | k :: ks' => negb (existsb (String.eqb k) ks') && keys_nodup ks'
  end.

(** Every Object of the tree has pairwise distinct keys, as a
    [std::unordered_map] has. *)
Fixpoint unique_keys (d : json_data) : bool :=
  match d with
  | JMap m => keys_nodup (List.map fst m) && forallb (fun '(_, v) => unique_keys v) m
  | JArray a => forallb unique_keys a
  | _ => true
  end.

(** ** The input loop of [main] *)

Definition READ_BUFSIZE : nat := 4096.

(** The variables of the loop: [buf.size()], [buf.capacity()], [fullSize]
    and [readed], with the [(offset, buf.size())] of every [fread] call. *)
Record read_state := mk_read {
  buf_size : nat;
  buf_capacity : nat;
  fullSize : nat;
  readed : nat;
  fread_calls : list (nat * nat)
}.

(** [std::vector<unsigned char> buf(READ_BUFSIZE); size_t readed =
    READ_BUFSIZE; size_t fullSize = 0;], the vector's capacity being [cap]. *)
Definition read_init (cap : nat) : read_state :=
  mk_read READ_BUFSIZE cap 0 READ_BUFSIZE [].

(** [while (readed == READ_BUFSIZE) { readed = fread(buf.data() + fullSize,
    1, READ_BUFSIZE, f); fullSize += readed;
    buf.resize(buf.capacity() + READ_BUFSIZE); }].  Each element of [io] is
    what one iteration gets from its environment: the count [fread]
    returns and the capacity of the vector after [resize].  [None] when
    [io] runs out before the loop exits. *)
Fixpoint read_input (io : list (nat * nat)) (st : read_state) : option read_state :=
  if Nat.eqb (readed st) READ_BUFSIZE then
    match io with
    | [] => None
    | (r, cap) :: io' =>
        read_input io'
          (mk_read (buf_capacity st + READ_BUFSIZE) cap (fullSize st + r) r
                   (fread_calls st ++ [(fullSize st, buf_size st)]))
    end
  else Some st.

(** What the C library guarantees of those values: [fread] returns at most
    the [READ_BUFSIZE] items asked for, and after [resize(n)] the capacity
    is at least [n]. *)
Fixpoint io_ok (cap : nat) (io : list (nat * nat)) : Prop :=
  match io with
  | [] => True
  | (r, cap') :: io' => r <= READ_BUFSIZE /\ cap + READ_BUFSIZE <= cap' /\ io_ok cap' io'
  end.

(** ** Where each accepted value is stored *)

Definition selector_eqb (s t : selector) : bool :=
  match s, t with
  | SIdx i, SIdx j => Nat.eqb i j
  | SKey k, SKey k' => String.eqb k k'
  | _, _ => false
  end.

(** [h] without its prefix [q], when [q] is a prefix of [h]. *)
Fixpoint strip (q h : path) : option path :=
  match q, h with
  | [], _ => Some h
  | s :: q', t :: h' => if selector_eqb s t then strip q' h' else None
  | _ :: _, [] => None
  end.

(** [Some i] when [h] is the handle of element [i] of an Array at [q]. *)
Definition index_under (q h : path) : option nat :=
  match strip q h with
  | Some [SIdx i] => Some i
  | _ => None
  end.

Fixpoint indices_under (q : path) (hs : list path) : list nat :=
  match hs with
  | [] => []
  | h :: hs' =>
      match index_under q h with
      | Some i => i :: indices_under q hs'
      | None => indices_under q hs'
      end
  end.

(** The pointer [insert] returns for an event, when its callback calls
    [insert] and the pointer is not [nullptr]: where the event's value is
    stored. *)
Definition step_handle (st : json_data_state) (ev : event) : list path :=
  match event_value ev with
  | Some v => match insert st v with Some (_, p) => [p] | None => [] end
  | None => []
  end.

(** Those pointers along the accepted events of a sequence, in arrival
    order. *)
Fixpoint handles (st : json_data_state) (evs : list event) : list path :=
  match evs with
  | [] => []
  | ev :: evs' =>
      match step st ev with
      | Continue st1 => step_handle st ev ++ handles st1 evs'
      | _ => []
      end
  end.

Definition arr_len (d : json_data) : option nat :=
  match d with JArray a => Some (List.length a) | _ => None end.

Definition olen (o : option json_data) : option nat :=
  match o with Some d => arr_len d | None => None end.

(** The number of elements of the Array the handle [q] refers to. *)
Definition alen (st : json_data_state) (q : path) : option nat :=
  match root st with
  | Some r => olen (deref q r)
  | None => None
  end.

(** Two trees with the same members: Arrays element by element in order,
    Objects up to the order of their members (a [std::unordered_map] has
    no member order of its own). *)
Inductive json_equiv : json_data -> json_data -> Prop :=
| equiv_scalar d : is_container d = false -> json_equiv d d
| equiv_array a a' : Forall2 json_equiv a a' -> json_equiv (JArray a) (JArray a')
| equiv_map m m1 m' :
    Forall2 (fun kv kv' => fst kv = fst kv' /\ json_equiv (snd kv) (snd kv')) m m1 ->
    Permutation m1 m' -> json_equiv (JMap m) (JMap m').

(** ** Building a tree inside a node *)

(** The node [c] once [insert] has added [v] to it: at the end of an
    Array, under the key [k] of an Object. *)
Definition place (k : String.string) (v : json_data) (c : json_data) : json_data :=
  match c with
  | JArray a => JArray (a ++ [v])
  | JMap m => JMap (map_emplace k v m)
  | _ => c
  end.

(** [c] takes a new value under [k]: an Array, or an Object without [k]. *)
Definition accepts (k : String.string) (c : json_data) : Prop :=
  match c with
  | JArray _ => True
  | JMap m => map_find k m = None
  | _ => False
  end.

(** The root is [W c] and the handle [p] refers to that node [c],
    whatever [c] is. *)
Definition slot (W : json_data -> json_data) (p : path) : Prop :=
  (forall y, deref p (W y) = Some y) /\ (forall f y, modify f p (W y) = W (f y)).

(** Reading the events of [d] with the handle of [c] on top of the stack
    adds [d] to [c] and leaves the stack as it was. *)
Definition builds (d : json_data) : Prop :=
  unique_keys d = true ->
  forall W p rest k c, slot W p -> accepts k c ->
  exists k', run (mk_state (p :: rest) k (Some (W c))) (tree_events d) =
             Continue (mk_state (p :: rest) k' (Some (W (place k d c)))).

(** A generator that rejects every string: one call per primitive, counting
    the primitives it accepted. *)
Definition reject_strings (t : gen_token) (n : nat) : yajl_gen_status * nat :=
  match t with
  | GString _ => (yajl_gen_invalid_string, n)
  | _ => (yajl_gen_status_ok, S n)
  end.

(** ** Lemmas on handles *)

Definition selector_eq_dec (s s' : selector) : {s = s'} + {s <> s'}.
Proof. decide equality; [apply Nat.eq_dec | apply string_dec]. Defined.

Lemma map_find_app k m1 m2 :
  map_find k (m1 ++ m2) =
  match map_find k m1 with Some x => Some x | None => map_find k m2 end.
Proof.
  induction m1 as [|[k' v] m1 IH]; simpl; [reflexivity|].
  destruct (String.eqb k k'); auto.
Qed.

Lemma map_find_update_same k g m :
  map_find k (map_update k g m) = option_map g (map_find k m).
Proof.
  induction m as [|[k' v] m IH]; simpl; [reflexivity|].
  destruct (String.eqb k k') eqn:E; simpl; rewrite ?E; auto.
Qed.

Lemma map_find_update_other k k' g m :
  k <> k' -> map_find k (map_update k' g m) = map_find k m.
Proof.
  intros Hne; induction m as [|[k0 v] m IH]; simpl; [reflexivity|].
  destruct (String.eqb k' k0) eqn:E'; simpl.
  - apply String.eqb_eq in E'; subst k0.
    destruct (String.eqb k k') eqn:E; [apply String.eqb_eq in E; congruence|].
    reflexivity.
  - destruct (String.eqb k k0); auto.
Qed.

Lemma nth_update_same i g a :
  nth_error (list_update i g a) i = option_map g (nth_error a i).
Proof.
  revert i; induction a as [|x a IH]; intros [|i]; simpl; auto.
Qed.

Lemma nth_update_other i j g a :
  i <> j -> nth_error (list_update j g a) i = nth_error a i.
Proof.
  revert i j; induction a as [|x a IH]; intros [|i] [|j] Hne; simpl; auto.
  - congruence.
Qed.

Lemma child_update_same s g d :
  child s (update_child s g d) = option_map g (child s d).
Proof.
  destruct s, d; simpl; auto using nth_update_same, map_find_update_same.
Qed.

Lemma child_update_other s s' g d :
  s <> s' -> child s (update_child s' g d) = child s d.
Proof.
  intros Hne; destruct s as [i|k], s' as [j|k'], d; simpl; auto.
  - apply nth_update_other; congruence.
  - apply map_find_update_other; congruence.
Qed.

Lemma type_update_child s g d : type (update_child s g d) = type d.
Proof. destruct s, d; reflexivity. Qed.

Lemma deref_app p q d :
  deref (p ++ q) d = match deref p d with Some e => deref q e | None => None end.
Proof.
  revert d; induction p as [|s p IH]; intros d; simpl; [reflexivity|].
  destruct (child s d); auto.
Qed.

Lemma deref_modify_same f p d :
  deref p (modify f p d) = option_map f (deref p d).
Proof.
  revert d; induction p as [|s p IH]; intros d; simpl; [reflexivity|].
  rewrite child_update_same; destruct (child s d); simpl; auto.
Qed.

(** An update that keeps the tag of the node and every child it had, as
    [emplace_back] and [emplace] do. *)
Definition growing (f : json_data -> json_data) : Prop :=
  (forall d, type (f d) = type d) /\
  (forall s d c, child s d = Some c -> child s (f d) = Some c).

Lemma type_modify f p d :
  growing f -> type (modify f p d) = type d.
Proof.
  intros [Ht _]; destruct p; simpl; [apply Ht | apply type_update_child].
Qed.

Lemma deref_modify_stable f p q d e :
  growing f -> deref q d = Some e ->
  exists e', deref q (modify f p d) = Some e' /\ type e' = type e.
Proof.
  intros Hg; revert p d e; induction q as [|s q IH]; intros p d e Hq.
  - simpl in Hq; injection Hq as <-.
    exists (modify f p d); split; [reflexivity | now apply type_modify].
  - simpl in Hq; destruct (child s d) as [c|] eqn:Hc; [|discriminate].
    destruct p as [|s' p]; simpl.
    + destruct Hg as [_ Hch]; rewrite (Hch _ _ _ Hc); eauto.
    + destruct (selector_eq_dec s s') as [<-|Hne].
      * rewrite child_update_same, Hc; simpl; eauto.
      * rewrite child_update_other, Hc by exact Hne; eauto.
Qed.

Lemma growing_array_emplace_back v : growing (array_emplace_back v).
Proof.
  split; [intros []; reflexivity|].
  intros [i|k] [] c Hc; simpl in *; try discriminate; auto.
  rewrite nth_error_app1; [exact Hc|].
  apply nth_error_Some; congruence.
Qed.

Lemma growing_map_emplace_at k v : growing (map_emplace_at k v).
Proof.
  split; [intros []; reflexivity|].
  intros [i|k'] [] c Hc; simpl in *; try discriminate; auto.
  unfold map_emplace; destruct (map_find k map); [exact Hc|].
  rewrite map_find_app, Hc; reflexivity.
Qed.

Lemma update_child_id s g d c :
  child s d = Some c -> g c = c -> update_child s g d = d.
Proof.
  intros Hc Hg; destruct s as [i|k], d; simpl in *; try discriminate.
  - f_equal; revert i Hc; induction array as [|x a IH]; intros [|i] Hc;
      simpl in *; try discriminate.
    + injection Hc as ->; now rewrite Hg.
    + now rewrite IH.
  - f_equal; induction map as [|[k' v] m IH]; simpl in *; [discriminate|].
    destruct (String.eqb k k'); [injection Hc as ->; now rewrite Hg|].
    now rewrite IH.
Qed.

Lemma modify_id f p d x :
  deref p d = Some x -> f x = x -> modify f p d = d.
Proof.
  revert d; induction p as [|s p IH]; intros d Hp Hf; simpl in *.
  - now injection Hp as ->.
  - destruct (child s d) as [c|] eqn:Hc; [|discriminate].
    apply (update_child_id _ _ _ c Hc); now apply IH.
Qed.

(** ** Lemmas on [insert] and [step] *)

Lemma insert_spec st v st' p :
  insert st v = Some (st', p) ->
  stack st' = stack st /\ tempKey st' = tempKey st /\
  exists r', root st' = Some r' /\
    deref p r' = Some (match existing_member st with Some d => d | None => v end).
Proof.
  unfold insert, existing_member; intros H.
  destruct (root st) as [r|] eqn:Hr.
  - destruct (stack st) as [|current rest] eqn:Hs; [discriminate|].
    destruct (deref current r) as [[]|] eqn:Hd; try discriminate;
      injection H as <- <-; simpl; (split; [congruence|]); (split; [reflexivity|]);
      eexists; (split; [reflexivity|]); rewrite deref_app, deref_modify_same, Hd;
      simpl.
    + unfold map_emplace; destruct (map_find (tempKey st) map) eqn:Hf;
        rewrite ?Hf; [reflexivity|].
      rewrite map_find_app, Hf; simpl; now rewrite String.eqb_refl.
    + rewrite nth_error_app2, Nat.sub_diag by lia; reflexivity.
  - injection H as <- <-; simpl; repeat split; eauto.
Qed.

Lemma insert_preserves st v st' p r q e :
  insert st v = Some (st', p) -> root st = Some r -> deref q r = Some e ->
  exists r' e', root st' = Some r' /\ deref q r' = Some e' /\ type e' = type e.
Proof.
  unfold insert; intros H Hr Hq; rewrite Hr in H.
  destruct (stack st) as [|current rest]; [discriminate|].
  destruct (deref current r) as [[]|]; try discriminate; injection H as <- <-;
    simpl; eexists; [ destruct (deref_modify_stable _ current q r e
                        (growing_map_emplace_at (tempKey st) v) Hq) as [e' [H1 H2]]
                    | destruct (deref_modify_stable _ current q r e
                        (growing_array_emplace_back v) Hq) as [e' [H1 H2]] ];
    exists e'; auto.
Qed.

Lemma step_value st ev v :
  event_value ev = Some v ->
  step st ev =
  match insert st v with
  | Some (st', p) => Continue (if is_begin_event ev then set_stack st' (p :: stack st') else st')
  | None => Cancel
  end.
Proof.
  destruct ev; simpl; intros H; try discriminate; injection H as <-; unfold insert_cb, start_cb;
    destruct (insert st _) as [[]|]; reflexivity.
Qed.

Lemma step_other st ev :
  event_value ev = None ->
  step st ev = match ev with
               | EvMapKey k => Continue (set_tempKey st k)
               | _ => end_cb st
               end.
Proof. destruct ev; simpl; congruence. Qed.

Lemma reachable_run st evs st' :
  reachable st -> run st evs = Continue st' -> reachable st'.
Proof.
  revert st; induction evs as [|ev evs IH]; intros st Hst H; simpl in H.
  - now injection H as <-.
  - destruct (step st ev) eqn:Hs; try discriminate.
    eapply IH; [econstructor; eauto | exact H].
Qed.

(** ** Lemmas on [generate_json] *)

Section json_data_ind_nested.
Variable P : json_data -> Prop.
Hypothesis HNull : P JNull.
Hypothesis HBoolean : forall b, P (JBoolean b).
Hypothesis HInteger : forall i, P (JInteger i).
Hypothesis HReal : forall r, P (JReal r).
Hypothesis HString : forall s, P (JString s).
Hypothesis HMap : forall m, Forall (fun kv => P (snd kv)) m -> P (JMap m).
Hypothesis HArray : forall a, Forall P a -> P (JArray a).

Fixpoint json_data_ind_nested (d : json_data) : P d :=
  match d with
  | JNull => HNull
  | JBoolean b => HBoolean b
  | JInteger i => HInteger i
  | JReal r => HReal r
  | JString s => HString s
  | JMap m =>
      HMap m ((fix go (m : list (String.string * json_data))
                 : Forall (fun kv => P (snd kv)) m :=
                 match m with
                 | [] => Forall_nil _
                 | kv :: m' => Forall_cons kv (json_data_ind_nested (snd kv)) (go m')
                 end) m)
  | JArray a =>
      HArray a ((fix go (a : list json_data) : Forall P a :=
                   match a with
                   | [] => Forall_nil _
                   | x :: a' => Forall_cons x (json_data_ind_nested x) (go a')
                   end) a)
  end.
End json_data_ind_nested.

Lemma app_cons_snoc {A} (l : list A) x r : l ++ x :: r = (l ++ [x]) ++ r.
Proof. now rewrite <- app_assoc. Qed.

Lemma generate_json_spec_render d buf :
  generate_json_spec d buf = (yajl_gen_status_ok, buf ++ render d).
Proof.
  unfold generate_json_spec; revert buf.
  induction d as [| | | | | m Hm | a Ha] using json_data_ind_nested;
    intros buf; try reflexivity; simpl; unfold yajl_gen_spec_call at 1; simpl;
    rewrite (app_cons_snoc buf _ (flat_map _ _ ++ _)).
  - generalize (buf ++ [GMapOpen]) as g; clear buf; intros g.
    revert g; induction Hm as [|[k v] m Hv Hm IH]; intros g; simpl in *.
    + reflexivity.
    + rewrite Hv; simpl; rewrite IH; f_equal.
      now rewrite <- !app_assoc.
  - generalize (buf ++ [GArrayOpen]) as g; clear buf; intros g.
    revert g; induction Ha as [|x a Hx Ha IH]; intros g; simpl in *.
    + reflexivity.
    + rewrite Hx; simpl; rewrite IH; f_equal.
      now rewrite <- !app_assoc.
Qed.


Lemma flat_map_generate_json_spec l :
  flat_map (fun x => snd (generate_json_spec x [])) l = flat_map render l.
Proof.
  induction l as [|x l IH]; simpl; [reflexivity|].
  now rewrite IH, generate_json_spec_render.
Qed.

Lemma frames_nested_array n : generate_json_frames (nested_array n) = S n.
Proof.
  induction n as [|n IH]; simpl; [reflexivity|].
  rewrite Nat.max_0_r in *; now rewrite IH.
Qed.

(** ** The stack-handle invariant *)

Definition handles_ok (Q : json_type -> Prop) (st : json_data_state) : Prop :=
  forall p, In p (stack st) ->
  exists r d, root st = Some r /\ deref p r = Some d /\ Q (type d).

Lemma step_handles_ok (Q : json_type -> Prop) st ev st' :
  handles_ok Q st ->
  (forall v, event_value ev = Some v -> is_begin_event ev = true ->
     Q (type (match existing_member st with Some d => d | None => v end))) ->
  step st ev = Continue st' ->
  handles_ok Q st'.
Proof.
  intros Hinv Hnew Hstep.
  destruct (event_value ev) as [v|] eqn:Hv.
  - rewrite (step_value _ _ _ Hv) in Hstep.
    destruct (insert st v) as [[st1 p1]|] eqn:Hi; [|discriminate].
    destruct (insert_spec _ _ _ _ Hi) as (Hs1 & _ & r1 & Hr1 & Hp1).
    assert (Hold : handles_ok Q st1).
    { intros q Hq; rewrite Hs1 in Hq.
      destruct (Hinv q Hq) as (r & d & Hr & Hd & HQ).
      destruct (insert_preserves _ _ _ _ _ _ _ Hi Hr Hd) as (r' & e' & Hr' & He' & Ht).
      exists r', e'; rewrite Ht; auto. }
    destruct (is_begin_event ev) eqn:Hb; injection Hstep as <-; [|exact Hold].
    intros q [<-|Hq].
    + exists r1; eexists; split; [exact Hr1|]; split; [exact Hp1|].
      now apply Hnew.
    + now apply Hold.
  - rewrite (step_other _ _ Hv) in Hstep.
    destruct ev; try discriminate; unfold end_cb in Hstep.
    + injection Hstep as <-; exact Hinv.
    + destruct (stack st) as [|top s] eqn:Hs; [discriminate|].
      injection Hstep as <-; intros q Hq; apply Hinv; rewrite Hs; now right.
    + destruct (stack st) as [|top s] eqn:Hs; [discriminate|].
      injection Hstep as <-; intros q Hq; apply Hinv; rewrite Hs; now right.
Qed.

Lemma reachable_handles_ok st : reachable st -> handles_ok (fun _ => True) st.
Proof.
  induction 1 as [|st ev st' _ IH Hstep].
  - intros p [].
  - eapply step_handles_ok; eauto.
Qed.

Definition container_type (t : json_type) : Prop :=
  t = json_type_map \/ t = json_type_array.

Lemma reachable_fresh_handles_ok st :
  reachable_fresh st -> handles_ok container_type st.
Proof.
  induction 1 as [|st ev st' _ IH Hfresh Hstep].
  - intros p [].
  - eapply step_handles_ok; eauto.
    intros v Hv Hb; rewrite (Hfresh Hb).
    destruct ev; simpl in *; try discriminate; injection Hv as <-;
      unfold container_type; simpl; auto.
Qed.

Lemma reachable_fresh_reachable st : reachable_fresh st -> reachable st.
Proof. induction 1; econstructor; eauto. Qed.

Lemma is_container_type d : is_container d = true <-> container_type (type d).
Proof.
  unfold is_container, container_type; destruct (type d); split;
    intros H; try discriminate; try (destruct H; discriminate); auto.
Qed.

(** ** The serializer issues the primitives of [render] in order *)

Lemma emit_all_app {G} (call : gen_token -> G -> yajl_gen_status * G) ts1 ts2 gen :
  emit_all call (ts1 ++ ts2) gen =
  let (status, gen') := emit_all call ts1 gen in
  if negb (status_ok status) then (status, gen') else emit_all call ts2 gen'.
Proof.
  revert gen; induction ts1 as [|t ts1 IH]; intros gen; simpl; [reflexivity|].
  destruct (call t gen) as [s g1]; destruct (status_ok s) eqn:E; simpl; rewrite ?E;
    [apply IH|reflexivity].
Qed.

Lemma emit_all_one {G} (call : gen_token -> G -> yajl_gen_status * G) t gen :
  emit_all call [t] gen = call t gen.
Proof. simpl; destruct (call t gen) as [[] g1]; reflexivity. Qed.

(** [generate_json] issues the primitives of [render d]. *)
Lemma generate_json_render {G} (call : gen_token -> G -> yajl_gen_status * G) d gen :
  generate_json G call d gen = emit_all call (render d) gen.
Proof.
  revert gen.
  induction d as [| | | | | m Hm | a Ha] using json_data_ind_nested;
    intros gen; try (cbn [render]; rewrite emit_all_one; reflexivity); simpl.
  - destruct (call GMapOpen gen) as [s g1]; destruct (status_ok s); simpl; [|reflexivity].
    clear gen; revert g1; induction Hm as [|[k v] m Hv Hm IH]; intros g1; simpl in *.
    + symmetry; apply emit_all_one.
    + destruct (call (GString k) g1) as [s2 g2]; destruct (status_ok s2); simpl;
        [|reflexivity].
      rewrite Hv, <- app_assoc, emit_all_app.
      destruct (emit_all call (render v) g2) as [s3 g3]; destruct (status_ok s3);
        simpl; [apply IH|reflexivity].
  - destruct (call GArrayOpen gen) as [s g1]; destruct (status_ok s); simpl; [|reflexivity].
    clear gen; revert g1; induction Ha as [|x a Hx Ha IH]; intros g1; simpl in *.
    + symmetry; apply emit_all_one.
    + rewrite Hx, <- app_assoc, emit_all_app.
      destruct (emit_all call (render x) g1) as [s3 g3]; destruct (status_ok s3);
        simpl; [apply IH|reflexivity].
Qed.

(** ** Arrays grow at their end *)

Lemma selector_eqb_eq s t : selector_eqb s t = true <-> s = t.
Proof.
  destruct s as [i|k], t as [j|k']; simpl; split; intros H; try discriminate.
  - apply Nat.eqb_eq in H; congruence.
  - injection H as ->; apply Nat.eqb_refl.
  - apply String.eqb_eq in H; congruence.
  - injection H as ->; apply String.eqb_refl.
Qed.

Lemma strip_app q r : strip q (q ++ r) = Some r.
Proof.
  induction q as [|s q IH]; simpl; [reflexivity|].
  now rewrite (proj2 (selector_eqb_eq s s) eq_refl).
Qed.

Lemma strip_Some q h r : strip q h = Some r -> h = q ++ r.
Proof.
  revert h; induction q as [|s q IH]; intros [|t h] H; simpl in *;
    try discriminate; try (injection H as <-; reflexivity).
  destruct (selector_eqb s t) eqn:E; [|discriminate].
  apply selector_eqb_eq in E; subst t; now rewrite (IH h H).
Qed.

Lemma index_under_snoc q i : index_under q (q ++ [SIdx i]) = Some i.
Proof. unfold index_under; now rewrite strip_app. Qed.

Lemma index_under_inv q p s i :
  index_under q (p ++ [s]) = Some i -> p = q /\ s = SIdx i.
Proof.
  unfold index_under; destruct (strip q (p ++ [s])) as [r|] eqn:E; [|discriminate].
  destruct r as [|[j|k] [|]]; try discriminate; intros H; injection H as ->.
  apply strip_Some in E; apply app_inj_tail in E; intuition congruence.
Qed.

Lemma index_under_nil q : index_under q [] = None.
Proof. destruct q; reflexivity. Qed.

Lemma indices_under_app q h1 h2 :
  indices_under q (h1 ++ h2) = indices_under q h1 ++ indices_under q h2.
Proof.
  induction h1 as [|h h1 IH]; simpl; [reflexivity|].
  destruct (index_under q h); simpl; now rewrite IH.
Qed.

Lemma list_update_length i g a : List.length (list_update i g a) = List.length a.
Proof.
  revert i; induction a as [|x a IH]; intros [|i]; simpl; auto.
Qed.

Lemma arr_len_update_child s g d : arr_len (update_child s g d) = arr_len d.
Proof.
  destruct s, d; simpl; try reflexivity; now rewrite list_update_length.
Qed.

(** The value an event constructs has no children. *)
Lemma event_value_leaf ev v q x :
  event_value ev = Some v -> deref q v = Some x -> q = [] /\ x = v.
Proof.
  intros Hv Hq; destruct q as [|s q]; simpl in Hq.
  - now injection Hq as <-.
  - destruct ev; simpl in Hv; try discriminate; injection Hv as <-;
      destruct s as [[|n]|k0]; simpl in Hq; discriminate.
Qed.

Lemma event_value_len ev v :
  event_value ev = Some v -> arr_len v = None \/ arr_len v = Some 0.
Proof. destruct ev; simpl; intros H; try discriminate; injection H as <-; auto. Qed.

(** A node that only exists after [modify f p] lies below [p], under a
    child that [f] added. *)
Lemma deref_modify_new f p q d c x :
  growing f -> deref p d = Some c -> deref q d = None -> deref q (modify f p d) = Some x ->
  exists s rest y, q = p ++ s :: rest /\ child s c = None /\
    child s (f c) = Some y /\ deref rest y = Some x.
Proof.
  intros Hg; revert p d; induction q as [|s q IH]; intros p d Hp Hq Hx;
    [discriminate|].
  destruct p as [|s' p].
  - simpl in Hp; injection Hp as <-; simpl in Hq, Hx.
    destruct (child s (f d)) as [y|] eqn:Hy; [|discriminate].
    destruct (child s d) as [c0|] eqn:Hc0.
    + destruct Hg as [_ Hch]; rewrite (Hch _ _ _ Hc0) in Hy; injection Hy as <-.
      congruence.
    + exists s, q, y; auto.
  - simpl in Hp; destruct (child s' d) as [d1|] eqn:Hd1; [|discriminate].
    simpl in Hx; destruct (selector_eq_dec s s') as [<-|Hne].
    + rewrite child_update_same, Hd1 in Hx; simpl in Hx; simpl in Hq; rewrite Hd1 in Hq.
      destruct (IH p d1 Hp Hq Hx) as (s0 & rest & y & -> & H1 & H2 & H3).
      exists s0, rest, y; auto.
    + rewrite child_update_other in Hx by exact Hne; simpl in Hq.
      destruct (child s d); congruence.
Qed.

(** A node other than the modified one keeps its number of elements. *)
Lemma arr_len_modify_other f p q d x :
  growing f -> q <> p -> deref q d = Some x ->
  exists x', deref q (modify f p d) = Some x' /\ arr_len x' = arr_len x.
Proof.
  intros Hg; revert p d x; induction q as [|s q IH]; intros p d x Hne Hq.
  - simpl in Hq; injection Hq as <-; destruct p as [|s' p]; [congruence|].
    exists (modify f (s' :: p) d); split; [reflexivity|]; apply arr_len_update_child.
  - simpl in Hq; destruct (child s d) as [c|] eqn:Hc; [|discriminate].
    destruct p as [|s' p]; simpl.
    + destruct Hg as [_ Hch]; rewrite (Hch _ _ _ Hc); eauto.
    + destruct (selector_eq_dec s s') as [<-|Hs].
      * rewrite child_update_same, Hc; simpl.
        apply IH; [intros ->; apply Hne; reflexivity|exact Hq].
      * rewrite child_update_other, Hc by exact Hs; eauto.
Qed.

(** Adding the leaf [v] under the node at [p] leaves the element count of
    every other node, and a node it creates is [v]. *)
Lemma olen_modify_leaf f p r c v ev q :
  growing f -> deref p r = Some c -> event_value ev = Some v ->
  (forall s y, child s c = None -> child s (f c) = Some y -> y = v) ->
  q <> p ->
  olen (deref q (modify f p r)) = olen (deref q r) \/
  (olen (deref q r) = None /\ olen (deref q (modify f p r)) = Some 0).
Proof.
  intros Hg Hp Hv Hnew Hne.
  destruct (deref q r) as [x|] eqn:Hq.
  - destruct (arr_len_modify_other f p q r x Hg Hne Hq) as (x' & -> & Hl).
    left; exact Hl.
  - destruct (deref q (modify f p r)) as [x'|] eqn:Hx; [|left; reflexivity].
    destruct (deref_modify_new f p q r c x' Hg Hp Hq Hx) as (s & rest & y & _ & H1 & H2 & H3).
    rewrite (Hnew s y H1 H2) in H3.
    destruct (event_value_leaf _ _ _ _ Hv H3) as [_ ->]; simpl.
    destruct (event_value_len _ _ Hv) as [->| ->];
      [left; reflexivity|right; split; reflexivity].
Qed.

Lemma new_child_array a v s y :
  child s (JArray a) = None -> child s (array_emplace_back v (JArray a)) = Some y -> y = v.
Proof.
  destruct s as [i|k]; simpl; [|discriminate]; intros H1 H2.
  apply nth_error_None in H1; rewrite nth_error_app2 in H2 by exact H1.
  destruct (i - List.length a); simpl in H2; [congruence|].
  destruct n; discriminate.
Qed.

Lemma new_child_map k m v s y :
  child s (JMap m) = None -> child s (map_emplace_at k v (JMap m)) = Some y -> y = v.
Proof.
  destruct s as [i|k']; simpl; [discriminate|]; intros H1 H2.
  unfold map_emplace in H2; destruct (map_find k m); [congruence|].
  rewrite map_find_app, H1 in H2; simpl in H2.
  destruct (String.eqb k' k); congruence.
Qed.

(** One accepted event: the Array at [q] is the one [insert] appended
    to, and then the handle of its new element is [q ++ [SIdx n]] with [n]
    its former length; otherwise its length stays, or [q] is a node the
    event created and has no elements. *)
Lemma step_alen st ev st' q :
  step st ev = Continue st' ->
  (indices_under q (step_handle st ev) = [] /\
   (alen st' q = alen st q \/ (alen st q = None /\ alen st' q = Some 0))) \/
  (exists n, alen st q = Some n /\ alen st' q = Some (S n) /\
             indices_under q (step_handle st ev) = [n]).
Proof.
  intros Hstep; unfold step_handle, alen.
  destruct (event_value ev) as [v|] eqn:Hv.
  2: { assert (Hr : root st' = root st).
       { rewrite (step_other _ _ Hv) in Hstep.
         destruct ev; try discriminate; unfold end_cb in Hstep;
           [injection Hstep as <- | destruct (stack st); [discriminate|];
            injection Hstep as <- | destruct (stack st); [discriminate|];
            injection Hstep as <-]; reflexivity. }
       rewrite Hr; left; split; [reflexivity|left; reflexivity]. }
  rewrite (step_value _ _ _ Hv) in Hstep.
  destruct (insert st v) as [[st1 p]|] eqn:Hi; [|discriminate].
  assert (Hr : root st' = root st1)
    by (destruct (is_begin_event ev); injection Hstep as <-; reflexivity).
  rewrite Hr; clear Hstep Hr; unfold insert in Hi.
  destruct (root st) as [r|] eqn:Hr0.
  - destruct (stack st) as [|current rest]; [discriminate|].
    destruct (deref current r) as [[]|] eqn:Hd; try discriminate;
      injection Hi as <- <-; cbn [root set_root].
    + left; split.
      * simpl; destruct (index_under q (current ++ [SKey (tempKey st)])) eqn:E;
          [|reflexivity].
        apply index_under_inv in E as [_ E]; discriminate.
      * destruct (list_eq_dec selector_eq_dec q current) as [->|Hne].
        -- left; rewrite deref_modify_same, Hd; reflexivity.
        -- exact (olen_modify_leaf _ current r (JMap map) v ev q
                    (growing_map_emplace_at _ _) Hd Hv (new_child_map _ _ _) Hne).
    + destruct (list_eq_dec selector_eq_dec q current) as [->|Hne].
      * right; exists (List.length array); rewrite deref_modify_same, Hd; simpl.
        rewrite index_under_snoc, length_app, Nat.add_1_r; auto.
      * left; split.
        -- simpl; destruct (index_under q (current ++ [SIdx (List.length array)])) eqn:E;
             [|reflexivity].
           apply index_under_inv in E as [E _]; congruence.
        -- exact (olen_modify_leaf _ current r (JArray array) v ev q
                    (growing_array_emplace_back _) Hd Hv (new_child_array _ _) Hne).
  - injection Hi as <- <-; cbn [root set_root]; left; split.
    + simpl; now rewrite index_under_nil.
    + destruct (deref q v) as [x|] eqn:Hq; [|left; reflexivity].
      destruct (event_value_leaf _ _ _ _ Hv Hq) as [_ ->].
      simpl; destruct (event_value_len _ _ Hv) as [->| ->]; [left|right]; auto.
Qed.

Lemma run_alen st evs st' q :
  run st evs = Continue st' ->
  match alen st q with
  | Some n => exists n', alen st' q = Some n' /\ n <= n' /\
                indices_under q (handles st evs) = seq n (n' - n)
  | None => forall n', alen st' q = Some n' -> indices_under q (handles st evs) = seq 0 n'
  end.
Proof.
  revert st; induction evs as [|ev evs IH]; intros st Hrun; simpl in Hrun.
  - injection Hrun as <-; simpl.
    destruct (alen st q) as [n|]; [|congruence].
    exists n; rewrite Nat.sub_diag; auto.
  - destruct (step st ev) as [st1| |] eqn:Hs; try discriminate.
    specialize (IH st1 Hrun); simpl; rewrite Hs, indices_under_app.
    destruct (step_alen st ev st1 q Hs)
      as [[-> [Heq|[Hn H0]]]|(n & Hn & Hn1 & ->)].
    + rewrite <- Heq; exact IH.
    + rewrite Hn; rewrite H0 in IH; destruct IH as (n' & Hn' & _ & Hi).
      intros n'' Hn''; rewrite Hn' in Hn''; injection Hn'' as <-.
      rewrite Hi, Nat.sub_0_r; reflexivity.
    + rewrite Hn; rewrite Hn1 in IH; destruct IH as (n' & Hn' & Hle & Hi).
      exists n'; split; [exact Hn'|]; split; [lia|].
      rewrite Hi; replace (n' - n) with (S (n' - S n)) by lia; reflexivity.
Qed.

(** * Claims *)

(** ** C1 *)

(** C1 (corrected): [map.emplace] does not replace an existing member.
    When the Object on top of the stack already holds a member under the
    buffered key, [insert] leaves the whole state unchanged and returns a
    handle to the member that was already there (first write wins); the
    events of [{"k":1,"k":2}] build an Object whose only member [k] is
    [Integer(1)]. *)
Theorem C1_emplace_keeps_first st v d0 :
  existing_member st = Some d0 ->
  (exists current rest, stack st = current :: rest /\
     insert st v = Some (st, current ++ [SKey (tempKey st)])) /\
  run init_state ev_dup_keys =
    Continue (mk_state [] "k" (Some (JMap [("k", JInteger 1)]))).
Proof.
  unfold existing_member; intros H; split; [|reflexivity].
  destruct (root st) as [r|] eqn:Hr; [|discriminate].
  destruct (stack st) as [|current rest] eqn:Hs; [discriminate|].
  exists current, rest; split; [reflexivity|].
  unfold insert; rewrite Hr, Hs.
  destruct (deref current r) as [[]|] eqn:Hd; try discriminate.
  rewrite (modify_id _ _ _ _ Hd); [|simpl; unfold map_emplace; now rewrite H].
  destruct st as [s k r0]; simpl in *; subst; reflexivity.
Qed.

Lemma C1_emplace_keeps_first_witness :
  existing_member (mk_state [[]] "k" (Some (JMap [("k", JInteger 1)])))
    = Some (JInteger 1) /\
  (exists current rest,
     stack (mk_state [[]] "k" (Some (JMap [("k", JInteger 1)]))) = current :: rest /\
     insert (mk_state [[]] "k" (Some (JMap [("k", JInteger 1)]))) (JInteger 2) =
       Some (mk_state [[]] "k" (Some (JMap [("k", JInteger 1)])),
             current ++ [SKey "k"])).
Proof.
  split; [reflexivity|].
  exact (proj1 (C1_emplace_keeps_first
                  (mk_state [[]] "k" (Some (JMap [("k", JInteger 1)])))
                  (JInteger 2) (JInteger 1) eq_refl)).
Defined.

(** C1 counterexample: the Object built from [{"k":1,"k":2}] is not the
    Object whose only member [k] is [Integer(2)]. *)
Lemma C1_counterexample :
  ~ (exists st, run init_state ev_dup_keys = Continue st /\
                root st = Some (JMap [("k", JInteger 2)])).
Proof.
  intros [st [Hrun Hroot]]; vm_compute in Hrun; injection Hrun as <-.
  simpl in Hroot; discriminate.
Qed.

(** ** C2 *)

(** C2 (corrected): the end map and end array callbacks pop the stack
    without looking at what the top handle refers to, so with a non-empty
    stack either event is accepted whatever kind of container is on top;
    BeginObject followed by EndArray builds an empty Object. *)
Theorem C2_end_pops_unchecked st p rest :
  stack st = p :: rest ->
  step st EvEndMap = Continue (set_stack st rest) /\
  step st EvEndArray = Continue (set_stack st rest) /\
  run init_state ev_mismatched_end = Continue (mk_state [] "" (Some (JMap []))).
Proof.
  intros Hs; simpl; unfold end_cb; rewrite Hs; repeat split.
Qed.

Lemma C2_end_pops_unchecked_witness :
  stack (mk_state [[]] "" (Some (JMap []))) = [[]] /\
  step (mk_state [[]] "" (Some (JMap []))) EvEndMap =
    Continue (mk_state [] "" (Some (JMap []))) /\
  step (mk_state [[]] "" (Some (JMap []))) EvEndArray =
    Continue (mk_state [] "" (Some (JMap []))) /\
  run init_state ev_mismatched_end = Continue (mk_state [] "" (Some (JMap []))).
Proof.
  split; [reflexivity|].
  exact (C2_end_pops_unchecked (mk_state [[]] "" (Some (JMap []))) [] [] eq_refl).
Defined.

(** C2 counterexample: an EndArray closing an Object does not make the build
    fail, and a lone EndArray reaches [std::stack::pop] on an empty stack
    instead of an UnbalancedContainer error. *)
Lemma C2_counterexample :
  run init_state ev_mismatched_end = Continue (mk_state [] "" (Some (JMap []))) /\
  run init_state [EvEndArray] = Undefined.
Proof. split; reflexivity. Qed.

(** ** C3 *)

(** C3 (corrected): with an Object on top of the stack, a scalar or
    container-begin event is always accepted and goes under whatever
    [tempKey] holds: the last ObjectKey seen, or [""] when none was seen;
    a member already under that key stays. *)
Theorem C3_object_insert_uses_tempKey st ev v r current rest m :
  root st = Some r -> stack st = current :: rest ->
  deref current r = Some (JMap m) -> event_value ev = Some v ->
  exists st' r', step st ev = Continue st' /\ root st' = Some r' /\
    deref (current ++ [SKey (tempKey st)]) r' =
      Some (match map_find (tempKey st) m with Some d => d | None => v end).
Proof.
  intros Hr Hs Hd Hv.
  assert (Hi : insert st v =
    Some (set_root st (modify (map_emplace_at (tempKey st) v) current r),
          current ++ [SKey (tempKey st)])).
  { unfold insert; rewrite Hr, Hs, Hd; reflexivity. }
  destruct (insert_spec _ _ _ _ Hi) as (_ & _ & r' & Hr' & Hp).
  assert (He : existing_member st = map_find (tempKey st) m).
  { unfold existing_member; rewrite Hr, Hs, Hd; reflexivity. }
  rewrite He in Hp; rewrite (step_value _ _ _ Hv), Hi.
  destruct (is_begin_event ev); eexists; exists r'; (split; [reflexivity|]);
    split; assumption.
Qed.

Lemma C3_object_insert_uses_tempKey_witness :
  exists st' r',
    step (mk_state [[]] "" (Some (JMap []))) (EvInteger 1) = Continue st' /\
    root st' = Some r' /\
    deref ([] ++ [SKey ""]) r' = Some (JInteger 1).
Proof.
  exact (C3_object_insert_uses_tempKey (mk_state [[]] "" (Some (JMap [])))
           (EvInteger 1) (JInteger 1) (JMap []) [] [] [] eq_refl eq_refl eq_refl eq_refl).
Defined.

(** C3 counterexample: an Integer right after BeginObject, with no
    ObjectKey, is inserted under the empty key instead of failing. *)
Lemma C3_counterexample :
  run init_state [EvStartMap; EvInteger 1] =
    Continue (mk_state [[]] "" (Some (JMap [("", JInteger 1)]))).
Proof. reflexivity. Qed.

(** ** C4 *)

(** C4 (corrected): the map key callback accepts every ObjectKey, whatever
    is on the stack (also nothing, or an Array): it overwrites [tempKey]
    and changes nothing else. *)
Theorem C4_map_key_unchecked st k :
  step st (EvMapKey k) = Continue (set_tempKey st k).
Proof. reflexivity. Qed.

(** C4 counterexample: an ObjectKey with an empty stack, and one with an
    Array on top, are both accepted. *)
Lemma C4_counterexample :
  step init_state (EvMapKey "a") = Continue (mk_state [] "a" None) /\
  run init_state [EvStartArray; EvMapKey "a"] =
    Continue (mk_state [[]] "a" (Some (JArray []))).
Proof. split; reflexivity. Qed.

(** ** C5 *)

(** C5 (corrected): [tempKey] is not cleared when an insertion uses it; a
    scalar or container-begin event that is accepted leaves it unchanged,
    so it keys every later insertion until the next ObjectKey. *)
Theorem C5_tempKey_kept st ev v st' :
  event_value ev = Some v -> step st ev = Continue st' ->
  tempKey st' = tempKey st.
Proof.
  intros Hv Hstep; rewrite (step_value _ _ _ Hv) in Hstep.
  destruct (insert st v) as [[st1 p]|] eqn:Hi; [|discriminate].
  destruct (insert_spec _ _ _ _ Hi) as (_ & Hk & _).
  destruct (is_begin_event ev); injection Hstep as <-; exact Hk.
Qed.

Lemma C5_tempKey_kept_witness :
  tempKey (mk_state [[]] "a" (Some (JMap [("a", JInteger 1)]))) =
  tempKey (mk_state [[]] "a" (Some (JMap []))).
Proof.
  exact (C5_tempKey_kept (mk_state [[]] "a" (Some (JMap []))) (EvInteger 1) (JInteger 1)
           (mk_state [[]] "a" (Some (JMap [("a", JInteger 1)]))) eq_refl eq_refl).
Defined.

(** C5 counterexample: after [{"a":1] the buffer still holds ["a"], and a
    second Integer is again inserted under ["a"] (hitting the member that is
    there). *)
Lemma C5_counterexample :
  run init_state ev_key_reused =
    Continue (mk_state [[]] "a" (Some (JMap [("a", JInteger 1)]))) /\
  insert (mk_state [[]] "a" (Some (JMap [("a", JInteger 1)]))) (JInteger 2) =
    Some (mk_state [[]] "a" (Some (JMap [("a", JInteger 1)])), [SKey "a"]).
Proof. split; reflexivity. Qed.

(** ** C6 *)

(** C6 (confirmed): with an empty stack and the root already set, [insert]
    returns [nullptr] before constructing anything, so a scalar or
    container-begin event for a second top-level value is rejected: the
    callback returns 0, nothing is inserted or pushed, and the parse is
    cancelled.  This cancellation is the builder's failure signal. *)
Theorem C6_second_top_level_rejected st ev v :
  stack st = [] -> root st <> None -> event_value ev = Some v ->
  insert st v = None /\ step st ev = Cancel.
Proof.
  intros Hs Hr Hv.
  assert (Hi : insert st v = None).
  { unfold insert; destruct (root st); [|congruence]; now rewrite Hs. }
  split; [exact Hi|]; rewrite (step_value _ _ _ Hv), Hi; reflexivity.
Qed.

Lemma C6_second_top_level_rejected_witness :
  insert (mk_state [] "" (Some JNull)) (JInteger 1) = None /\
  step (mk_state [] "" (Some JNull)) (EvInteger 1) = Cancel.
Proof.
  refine (C6_second_top_level_rejected (mk_state [] "" (Some JNull))
            (EvInteger 1) (JInteger 1) eq_refl _ eq_refl).
  simpl; discriminate.
Defined.

(** ** C7 *)

(** C7 (corrected): [generate_json] renders a tree by native recursion, one
    nested call per nesting level ([generate_json_frames] of an Array nested
    [n] levels deep is [n + 1]), with no work stack and no depth guard of its
    own; with encoder primitives that succeed it renders every tree
    completely with [yajl_gen_status_ok], the Array nested 1000 levels deep
    included. *)
Theorem C7_recursion_unguarded :
  (forall n, generate_json_frames (nested_array n) = S n) /\
  (forall d buf, generate_json_spec d buf = (yajl_gen_status_ok, buf ++ render d)) /\
  fst (generate_json_spec (nested_array 1000) []) = yajl_gen_status_ok.
Proof.
  split; [exact frames_nested_array|].
  split; [exact generate_json_spec_render|].
  now rewrite generate_json_spec_render.
Qed.

(** C7 counterexample: no bound on the call depth of [generate_json] holds
    for all trees, and no tree beyond a bound is refused with a failing
    status. *)
Lemma C7_counterexample :
  ~ (exists B, forall d, generate_json_frames d <= B \/
                         status_ok (fst (generate_json_spec d [])) = false).
Proof.
  intros [B HB]; destruct (HB (nested_array B)) as [H|H].
  - rewrite frames_nested_array in H; lia.
  - rewrite generate_json_spec_render in H; discriminate.
Qed.

(** ** C8 *)

(** C8 (corrected): a container-begin event calls [insert] with the empty
    container, as the scalar callbacks call it with their value.  When
    [insert] returns [nullptr] the callback cancels the parse and pushes
    nothing.  Otherwise the tree is the one the scalar callback would leave,
    and the handle [insert] returns is pushed on top of the old stack.  It
    refers to the new container, except when the Object on top of the stack
    already holds the buffered key: then it refers to the member already
    there, possibly a scalar. *)
Theorem C8_start_pushes_insert_handle st ev v :
  is_begin_event ev = true -> event_value ev = Some v ->
  (insert st v = None /\ insert_cb st v = Cancel /\ step st ev = Cancel) \/
  (exists st1 p r', insert st v = Some (st1, p) /\
     insert_cb st v = Continue st1 /\
     step st ev = Continue (set_stack st1 (p :: stack st)) /\
     stack st1 = stack st /\ root st1 = Some r' /\
     deref p r' = Some (match existing_member st with Some d => d | None => v end)).
Proof.
  intros Hb Hv; rewrite (step_value _ _ _ Hv), Hb; unfold insert_cb.
  destruct (insert st v) as [[st1 p]|] eqn:Hi; [right|left; auto].
  destruct (insert_spec _ _ _ _ Hi) as (Hs & _ & r' & Hr' & Hp).
  exists st1, p, r'; rewrite Hs; auto 7.
Qed.

(** At a BeginArray under a key the top Object already holds (the existing
    [Integer(1)] is pushed), under a fresh key, and after a complete
    top-level value (rejected). *)
Lemma C8_start_pushes_insert_handle_witness :
  ((insert (mk_state [[]] "k" (Some (JMap [("k", JInteger 1)]))) (JArray []) = None /\ insert_cb (mk_state [[]] "k" (Some (JMap [("k", JInteger 1)]))) (JArray []) = Cancel /\
    step (mk_state [[]] "k" (Some (JMap [("k", JInteger 1)]))) EvStartArray = Cancel) \/
   (exists st1 p r', insert (mk_state [[]] "k" (Some (JMap [("k", JInteger 1)]))) (JArray []) = Some (st1, p) /\
      insert_cb (mk_state [[]] "k" (Some (JMap [("k", JInteger 1)]))) (JArray []) = Continue st1 /\
      step (mk_state [[]] "k" (Some (JMap [("k", JInteger 1)]))) EvStartArray = Continue (set_stack st1 (p :: stack (mk_state [[]] "k" (Some (JMap [("k", JInteger 1)]))))) /\
      stack st1 = stack (mk_state [[]] "k" (Some (JMap [("k", JInteger 1)]))) /\ root st1 = Some r' /\
      deref p r' = Some (match existing_member (mk_state [[]] "k" (Some (JMap [("k", JInteger 1)]))) with Some d => d | None => (JArray []) end))) /\
  ((insert (mk_state [[]] "j" (Some (JMap [("k", JInteger 1)]))) (JMap []) = None /\ insert_cb (mk_state [[]] "j" (Some (JMap [("k", JInteger 1)]))) (JMap []) = Cancel /\
    step (mk_state [[]] "j" (Some (JMap [("k", JInteger 1)]))) EvStartMap = Cancel) \/
   (exists st1 p r', insert (mk_state [[]] "j" (Some (JMap [("k", JInteger 1)]))) (JMap []) = Some (st1, p) /\
      insert_cb (mk_state [[]] "j" (Some (JMap [("k", JInteger 1)]))) (JMap []) = Continue st1 /\
      step (mk_state [[]] "j" (Some (JMap [("k", JInteger 1)]))) EvStartMap = Continue (set_stack st1 (p :: stack (mk_state [[]] "j" (Some (JMap [("k", JInteger 1)]))))) /\
      stack st1 = stack (mk_state [[]] "j" (Some (JMap [("k", JInteger 1)]))) /\ root st1 = Some r' /\
      deref p r' = Some (match existing_member (mk_state [[]] "j" (Some (JMap [("k", JInteger 1)]))) with Some d => d | None => (JMap []) end))) /\
  ((insert (mk_state [] "" (Some JNull)) (JArray []) = None /\ insert_cb (mk_state [] "" (Some JNull)) (JArray []) = Cancel /\
    step (mk_state [] "" (Some JNull)) EvStartArray = Cancel) \/
   (exists st1 p r', insert (mk_state [] "" (Some JNull)) (JArray []) = Some (st1, p) /\
      insert_cb (mk_state [] "" (Some JNull)) (JArray []) = Continue st1 /\
      step (mk_state [] "" (Some JNull)) EvStartArray = Continue (set_stack st1 (p :: stack (mk_state [] "" (Some JNull)))) /\
      stack st1 = stack (mk_state [] "" (Some JNull)) /\ root st1 = Some r' /\
      deref p r' = Some (match existing_member (mk_state [] "" (Some JNull)) with Some d => d | None => (JArray []) end))).
Proof.
  split; [|split].
  - exact (C8_start_pushes_insert_handle (mk_state [[]] "k" (Some (JMap [("k", JInteger 1)]))) EvStartArray (JArray []) eq_refl eq_refl).
  - exact (C8_start_pushes_insert_handle (mk_state [[]] "j" (Some (JMap [("k", JInteger 1)]))) EvStartMap (JMap []) eq_refl eq_refl).
  - exact (C8_start_pushes_insert_handle (mk_state [] "" (Some JNull)) EvStartArray (JArray []) eq_refl eq_refl).
Defined.

(** C8 counterexample: in [{"k":1,"k":[] ] the BeginArray pushes a handle
    to the [Integer(1)] already stored under [k], not to a new Array. *)
Lemma C8_counterexample :
  run init_state ev_dup_container =
    Continue (mk_state [[SKey "k"]; []] "k" (Some (JMap [("k", JInteger 1)]))) /\
  deref [SKey "k"] (JMap [("k", JInteger 1)]) = Some (JInteger 1).
Proof. split; reflexivity. Qed.

(** ** C9 *)

(** C9 (confirmed): for every event sequence the builder accepts from the
    initial state, and every Array of the built tree, at handle [q]: the
    events whose value [insert] stored directly in that Array got, in
    arrival order, the handles of its elements [0], [1], ..., [n-1], one
    each: element [i] is the one the [i]-th of them stored.  And
    [generate_json] issues that Array's elements in stored order. *)
Theorem C9_array_order evs st' r' q a :
  run init_state evs = Continue st' -> root st' = Some r' ->
  deref q r' = Some (JArray a) ->
  indices_under q (handles init_state evs) = seq 0 (List.length a) /\
  (forall G (call : gen_token -> G -> yajl_gen_status * G) gen,
     generate_json G call (JArray a) gen =
     emit_all call (GArrayOpen :: flat_map render a ++ [GArrayClose]) gen).
Proof.
  intros Hrun Hr Hq; split.
  - pose proof (run_alen init_state evs st' q Hrun) as H; simpl in H.
    apply H; unfold alen; rewrite Hr, Hq; reflexivity.
  - intros G call gen; apply generate_json_render.
Qed.

(** [{"k":[1],"k":[2]}]: both Arrays' elements land, in arrival order, in
    the Array first stored under [k]. *)
Lemma C9_array_order_witness :
  indices_under [SKey "k"] (handles init_state ev_merge_arrays) =
    seq 0 (List.length [JInteger 1; JInteger 2]) /\
  (forall G (call : gen_token -> G -> yajl_gen_status * G) gen,
     generate_json G call (JArray [JInteger 1; JInteger 2]) gen =
     emit_all call (GArrayOpen :: flat_map render [JInteger 1; JInteger 2] ++
                    [GArrayClose]) gen).
Proof.
  exact (C9_array_order ev_merge_arrays
           (mk_state [] "k" (Some (JMap [("k", JArray [JInteger 1; JInteger 2])])))
           (JMap [("k", JArray [JInteger 1; JInteger 2])]) [SKey "k"]
           [JInteger 1; JInteger 2] eq_refl eq_refl eq_refl).
Defined.

(** ** C10 *)

(** C10 (corrected): in every reachable state every handle on the stack
    dereferences to a node of the tree; it is an Object or an Array in every
    state reached without starting a container under a key already present
    in the Object on top of the stack. *)
Theorem C10_stack_handles st :
  reachable st ->
  forall p, In p (stack st) ->
  exists r d, root st = Some r /\ deref p r = Some d /\
    (reachable_fresh st -> is_container d = true).
Proof.
  intros Hreach p Hp.
  destruct (reachable_handles_ok st Hreach p Hp) as (r & d & Hr & Hd & _).
  exists r, d; split; [exact Hr|]; split; [exact Hd|].
  intros Hfresh; apply is_container_type.
  destruct (reachable_fresh_handles_ok st Hfresh p Hp) as (r' & d' & Hr' & Hd' & Ht).
  congruence.
Qed.

Lemma C10_stack_handles_witness :
  exists r d, root (mk_state [[SIdx 0]; []] "" (Some (JArray [JMap []]))) = Some r /\
    deref [SIdx 0] r = Some d /\
    (reachable_fresh (mk_state [[SIdx 0]; []] "" (Some (JArray [JMap []]))) ->
     is_container d = true).
Proof.
  refine (C10_stack_handles (mk_state [[SIdx 0]; []] "" (Some (JArray [JMap []])))
            (reachable_run init_state [EvStartArray; EvStartMap] _
               reachable_init eq_refl) [SIdx 0] _).
  simpl; auto.
Defined.

(** C10 counterexample: after [{"k":1,"k":[] ] the handle on top of the
    stack refers to the [Integer(1)] member, a scalar. *)
Lemma C10_counterexample :
  ~ (forall st, reachable st -> forall p, In p (stack st) ->
     exists r d, root st = Some r /\ deref p r = Some d /\ is_container d = true).
Proof.
  intros H.
  destruct (H _ (reachable_run init_state ev_dup_container _ reachable_init eq_refl)
              [SKey "k"] (or_introl eq_refl)) as (r & d & Hr & Hd & Hc).
  simpl in Hr; injection Hr as <-; simpl in Hd; injection Hd as <-.
  discriminate.
Qed.

(** * Further properties of program.cpp *)

(** [generate_json] makes exactly the primitive calls of [render d], in
    order, for any generator: it stops at the first call whose status is
    not [yajl_gen_status_ok] and returns that status, and otherwise returns
    the status of the last call. *)
Theorem generate_json_emit_all {G} (call : gen_token -> G -> yajl_gen_status * G) d gen :
  generate_json G call d gen = emit_all call (render d) gen.
Proof. apply generate_json_render. Qed.

(** ** Handles stay valid *)

(** Every handle into the tree that dereferences before an accepted event
    still dereferences after it, to a node with the same tag; once set, the
    root stays set. *)
Theorem step_keeps_nodes st ev st' r q d :
  root st = Some r -> deref q r = Some d -> step st ev = Continue st' ->
  exists r' d', root st' = Some r' /\ deref q r' = Some d' /\ type d' = type d.
Proof.
  intros Hr Hq Hstep.
  destruct (event_value ev) as [v|] eqn:Hv.
  - rewrite (step_value _ _ _ Hv) in Hstep.
    destruct (insert st v) as [[st1 p1]|] eqn:Hi; [|discriminate].
    destruct (insert_preserves _ _ _ _ _ _ _ Hi Hr Hq) as (r' & d' & Hr' & Hd' & Ht).
    exists r', d'; destruct (is_begin_event ev); injection Hstep as <-; auto.
  - rewrite (step_other _ _ Hv) in Hstep.
    destruct ev; try discriminate; unfold end_cb in Hstep;
      [injection Hstep as <- | destruct (stack st); [discriminate|]; injection Hstep as <-
      | destruct (stack st); [discriminate|]; injection Hstep as <-];
      exists r, d; simpl; auto.
Qed.

Lemma step_keeps_nodes_witness :
  exists r' d',
    root (mk_state [[]] "a" (Some (JMap [("a", JArray [])]))) = Some r' /\
    deref [] r' = Some d' /\ type d' = type (JMap []).
Proof.
  exact (step_keeps_nodes (mk_state [[]] "a" (Some (JMap []))) EvStartArray
           (mk_state [[SKey "a"]; []] "a" (Some (JMap [("a", JArray [])])))
           (JMap []) [] (JMap []) eq_refl eq_refl eq_refl).
Defined.

(** ** When [insert] returns [nullptr] *)

(** In a reachable state, [insert] rejects a value exactly when the root is
    already set and either the stack is empty (a second top-level value) or
    the handle on top of the stack refers to a scalar. *)
Theorem insert_rejects_iff st v :
  reachable st ->
  (insert st v = None <->
   root st <> None /\
   (stack st = [] \/
    exists p rest r d, stack st = p :: rest /\ root st = Some r /\
                       deref p r = Some d /\ is_container d = false)).
Proof.
  intros Hreach; pose proof (reachable_handles_ok st Hreach) as Hok.
  unfold insert; destruct (root st) as [r|] eqn:Hr.
  - destruct (stack st) as [|p rest] eqn:Hs.
    + split; [intros _; split; [discriminate | now left] | reflexivity].
    + destruct (Hok p) as (r0 & d & Hr0 & Hd & _); [rewrite Hs; now left|].
      rewrite Hr in Hr0; injection Hr0 as <-; rewrite Hd.
      split.
      * intros Hn; split; [discriminate|right].
        exists p, rest, r, d; repeat split; auto.
        destruct d; cbv [is_container type] in *; try reflexivity; congruence.
      * intros [_ [Hc|(p' & rest' & r' & d' & Hs' & Hr' & Hd' & Hc)]]; [discriminate|].
        injection Hs' as <- <-; injection Hr' as <-; rewrite Hd in Hd';
          injection Hd' as <-.
        destruct d; cbv [is_container type] in *; try reflexivity; congruence.
  - split; [discriminate|]; intros [H _]; congruence.
Qed.

Lemma insert_rejects_iff_witness :
  insert (mk_state [] "" (Some JNull)) (JInteger 1) = None <->
  root (mk_state [] "" (Some JNull)) <> None /\
  (stack (mk_state [] "" (Some JNull)) = [] \/
   exists p rest r d, stack (mk_state [] "" (Some JNull)) = p :: rest /\
     root (mk_state [] "" (Some JNull)) = Some r /\
     deref p r = Some d /\ is_container d = false).
Proof.
  exact (insert_rejects_iff (mk_state [] "" (Some JNull)) (JInteger 1)
           (reachable_run init_state [EvNull] _ reachable_init eq_refl)).
Defined.

(** ** The input loop of [main] stays inside the buffer *)

Lemma read_input_inv io st st' :
  fullSize st + READ_BUFSIZE <= buf_size st -> buf_size st <= buf_capacity st ->
  (forall off size, In (off, size) (fread_calls st) -> off + READ_BUFSIZE <= size) ->
  io_ok (buf_capacity st) io -> read_input io st = Some st' ->
  fullSize st' + READ_BUFSIZE <= buf_size st' /\ buf_size st' <= buf_capacity st' /\
  (forall off size, In (off, size) (fread_calls st') -> off + READ_BUFSIZE <= size).
Proof.
  revert st; induction io as [|[r cap] io IH]; intros st H1 H2 H3 Hio Hrd; simpl in Hrd.
  - destruct (Nat.eqb (readed st) READ_BUFSIZE); [discriminate|].
    injection Hrd as <-; auto.
  - destruct (Nat.eqb (readed st) READ_BUFSIZE); [|injection Hrd as <-; auto].
    simpl in Hio; destruct Hio as (Hr & Hcap & Hio).
    apply IH in Hrd; [exact Hrd|cbn [fullSize buf_size buf_capacity]; lia
      |cbn [buf_size buf_capacity]; lia| |exact Hio].
    cbn [fread_calls]; intros off size Hin; apply in_app_or in Hin as [Hin|[Heq|[]]].
    + now apply H3.
    + injection Heq as <- <-; exact H1.
Qed.

(** Whatever [fread] returns (at most [READ_BUFSIZE]) and whatever
    capacity the vector has (at least its size), every [fread] of the input
    loop writes its [READ_BUFSIZE] bytes inside [buf], and the [fullSize]
    bytes handed to [yajl_parse] lie inside [buf]. *)
Theorem read_input_in_bounds io cap st :
  READ_BUFSIZE <= cap -> io_ok cap io -> read_input io (read_init cap) = Some st ->
  (forall off size, In (off, size) (fread_calls st) -> off + READ_BUFSIZE <= size) /\
  fullSize st <= buf_size st.
Proof.
  intros Hcap Hio Hrd.
  assert (H0 : fullSize (read_init cap) + READ_BUFSIZE <= buf_size (read_init cap))
    by (cbn [read_init fullSize buf_size]; lia).
  destruct (read_input_inv io (read_init cap) st H0 Hcap
              ltac:(intros ? ? []) Hio Hrd) as (H1 & _ & H3).
  split; [exact H3|lia].
Qed.

Lemma read_input_in_bounds_witness :
  (forall off size,
     In (off, size) [(0, READ_BUFSIZE); (READ_BUFSIZE, 2 * READ_BUFSIZE)] ->
     off + READ_BUFSIZE <= size) /\
  READ_BUFSIZE + 100 <= 4 * READ_BUFSIZE.
Proof.
  exact (read_input_in_bounds [(READ_BUFSIZE, 3 * READ_BUFSIZE); (100, 5 * READ_BUFSIZE)]
           READ_BUFSIZE
           (mk_read (4 * READ_BUFSIZE) (5 * READ_BUFSIZE) (READ_BUFSIZE + 100) 100
                    [(0, READ_BUFSIZE); (READ_BUFSIZE, 2 * READ_BUFSIZE)])
           (le_n _) ltac:(cbn [io_ok]; repeat split; unfold READ_BUFSIZE; lia) eq_refl).
Defined.

(** ** Reading back the events of a tree rebuilds it *)

Lemma list_update_ext i g g' a :
  (forall x, g x = g' x) -> list_update i g a = list_update i g' a.
Proof.
  intros Hg; revert i; induction a as [|x a IH]; intros [|i]; simpl; f_equal; auto.
Qed.

Lemma map_update_ext k g g' m :
  (forall x, g x = g' x) -> map_update k g m = map_update k g' m.
Proof.
  intros Hg; induction m as [|[k' v] m IH]; simpl; [reflexivity|].
  destruct (String.eqb k k'); rewrite ?Hg, ?IH; reflexivity.
Qed.

Lemma update_child_ext s g g' d :
  (forall x, g x = g' x) -> update_child s g d = update_child s g' d.
Proof.
  intros Hg; destruct s, d; simpl; f_equal;
    auto using list_update_ext, map_update_ext.
Qed.

Lemma modify_app f p q d : modify f (p ++ q) d = modify (modify f q) p d.
Proof.
  revert d; induction p as [|s p IH]; intros d; simpl; [reflexivity|].
  apply update_child_ext; intros x; apply IH.
Qed.

Lemma list_update_snoc f a y :
  list_update (List.length a) f (a ++ [y]) = a ++ [f y].
Proof. induction a as [|x a IH]; simpl; f_equal; auto. Qed.

Lemma map_update_snoc k f m y :
  map_find k m = None -> map_update k f (m ++ [(k, y)]) = m ++ [(k, f y)].
Proof.
  induction m as [|[k' v] m IH]; simpl; intros Hf.
  - now rewrite String.eqb_refl.
  - destruct (String.eqb k k'); [discriminate|]; f_equal; auto.
Qed.

Lemma map_emplace_absent k v m :
  map_find k m = None -> map_emplace k v m = m ++ [(k, v)].
Proof. unfold map_emplace; intros ->; reflexivity. Qed.

Lemma map_find_snoc k m y : map_find k m = None -> map_find k (m ++ [(k, y)]) = Some y.
Proof. intros Hf; rewrite map_find_app, Hf; simpl; now rewrite String.eqb_refl. Qed.

Lemma slot_id : slot (fun y => y) [].
Proof. split; reflexivity. Qed.

Lemma insert_slot W p rest k c v :
  slot W p -> accepts k c ->
  exists q, insert (mk_state (p :: rest) k (Some (W c))) v =
              Some (mk_state (p :: rest) k (Some (W (place k v c))), q) /\
            slot (fun y => W (place k y c)) q.
Proof.
  intros [HW1 HW2] Hc; unfold insert; cbn [root stack tempKey]; rewrite HW1.
  destruct c as [| | | | | m | a]; simpl in Hc; try contradiction.
  - exists (p ++ [SKey k]); unfold set_root; cbn [stack tempKey]; rewrite HW2.
    split; [reflexivity|]; split.
    + intros y; rewrite deref_app, HW1; simpl.
      rewrite map_emplace_absent by exact Hc; now rewrite map_find_snoc.
    + intros f y; rewrite modify_app, HW2; simpl.
      rewrite !map_emplace_absent by exact Hc; now rewrite map_update_snoc.
  - exists (p ++ [SIdx (List.length a)]); unfold set_root; cbn [stack tempKey];
      rewrite HW2.
    split; [reflexivity|]; split.
    + intros y; rewrite deref_app, HW1; simpl.
      rewrite nth_error_app2, Nat.sub_diag by lia; reflexivity.
    + intros f y; rewrite modify_app, HW2; simpl; now rewrite list_update_snoc.
Qed.

Lemma insert_cb_slot W p rest k c v :
  slot W p -> accepts k c ->
  insert_cb (mk_state (p :: rest) k (Some (W c))) v =
  Continue (mk_state (p :: rest) k (Some (W (place k v c)))).
Proof.
  intros HW Hc; destruct (insert_slot W p rest k c v HW Hc) as (q & Hi & _).
  unfold insert_cb; now rewrite Hi.
Qed.

Lemma run_app st l1 l2 :
  run st (l1 ++ l2) = match run st l1 with Continue st' => run st' l2 | o => o end.
Proof.
  revert st; induction l1 as [|ev l1 IH]; intros st; simpl; [reflexivity|].
  destruct (step st ev); auto.
Qed.

Lemma items_build a :
  Forall builds a -> forallb unique_keys a = true ->
  forall W q s k a0, slot W q ->
  exists k', run (mk_state (q :: s) k (Some (W (JArray a0)))) (flat_map tree_events a) =
             Continue (mk_state (q :: s) k' (Some (W (JArray (a0 ++ a))))).
Proof.
  induction 1 as [|x a Hx Ha IH]; intros Hu W q s k a0 HW; simpl in *.
  - exists k; now rewrite app_nil_r.
  - apply andb_prop in Hu as [Hux Hua].
    destruct (Hx Hux W q s k (JArray a0) HW I) as [k1 H1].
    rewrite run_app, H1.
    destruct (IH Hua W q s k1 (a0 ++ [x]) HW) as [k2 H2].
    exists k2; simpl; rewrite H2, <- app_assoc; reflexivity.
Qed.

Lemma existsb_eqb_In k ks : In k ks -> existsb (String.eqb k) ks = true.
Proof.
  intros Hin; apply existsb_exists; exists k; split; [exact Hin|apply String.eqb_refl].
Qed.

Lemma members_build m :
  Forall (fun kv => builds (snd kv)) m ->
  keys_nodup (List.map fst m) = true ->
  forallb (fun '(_, v) => unique_keys v) m = true ->
  forall W q s k m0, slot W q ->
  (forall key, In key (List.map fst m) -> map_find key m0 = None) ->
  exists k', run (mk_state (q :: s) k (Some (W (JMap m0))))
               (flat_map (fun '(k, v) => EvMapKey k :: tree_events v) m) =
             Continue (mk_state (q :: s) k' (Some (W (JMap (m0 ++ m))))).
Proof.
  induction 1 as [|[key v] m Hv Hm IH]; intros Hnd Hu W q s k m0 HW Hfresh;
    simpl in *.
  - exists k; now rewrite app_nil_r.
  - apply andb_prop in Hnd as [Hnk Hnd]; apply andb_prop in Hu as [Huv Hum].
    assert (Hk : map_find key m0 = None) by (apply Hfresh; now left).
    destruct (Hv Huv W q s key (JMap m0) HW Hk) as [k1 H1].
    unfold set_tempKey; cbn [stack root]; rewrite run_app, H1; simpl; rewrite map_emplace_absent by exact Hk.
    destruct (IH Hnd Hum W q s k1 (m0 ++ [(key, v)]) HW) as [k2 H2].
    + intros key' Hin; rewrite map_find_app, (Hfresh key' (or_intror Hin)); simpl.
      destruct (String.eqb key' key) eqn:E; [|reflexivity].
      apply String.eqb_eq in E; subst key'.
      rewrite (existsb_eqb_In _ _ Hin) in Hnk; discriminate.
    + exists k2; rewrite H2, <- app_assoc; reflexivity.
Qed.

Lemma all_build d : builds d.
Proof.
  induction d as [| | | | | m Hm | a Ha] using json_data_ind_nested;
    intros Hu W p rest k c HW Hc;
    try (exists k; cbn [tree_events run step];
         rewrite (insert_cb_slot W p rest k c) by assumption; reflexivity).
  - cbn [tree_events run step]; unfold start_cb.
    destruct (insert_slot W p rest k c (json_data_of_type json_type_map) HW Hc)
      as (q & Hi & Hq).
    rewrite Hi; unfold set_stack; cbn [stack tempKey root].
    cbn [json_data_of_type].
    simpl in Hu; apply andb_prop in Hu as [Hnd Hum].
    destruct (members_build m Hm Hnd Hum _ q (p :: rest) k [] Hq (fun _ _ => eq_refl))
      as [k1 H1].
    cbn beta in H1; exists k1; rewrite run_app, H1; reflexivity.
  - cbn [tree_events run step]; unfold start_cb.
    destruct (insert_slot W p rest k c (json_data_of_type json_type_array) HW Hc)
      as (q & Hi & Hq).
    rewrite Hi; unfold set_stack; cbn [stack tempKey root].
    cbn [json_data_of_type].
    simpl in Hu.
    destruct (items_build a Ha Hu _ q (p :: rest) k [] Hq) as [k1 H1].
    cbn beta in H1; exists k1; rewrite run_app, H1; reflexivity.
Qed.

Lemma json_equiv_refl d : json_equiv d d.
Proof.
  induction d as [| | | | | m Hm | a Ha] using json_data_ind_nested;
    try (apply equiv_scalar; reflexivity).
  - apply (equiv_map m m m); [|apply Permutation_refl].
    induction Hm as [|kv m Hkv Hm IH]; constructor; auto.
  - apply equiv_array; induction Ha as [|x a Hx Ha IH]; constructor; auto.
Qed.

(** For a tree whose Objects have distinct keys, the callbacks yajl makes
    for its text rebuild that tree as [state.root], with the stack empty
    again: the same members under the same keys, Arrays element by element
    in order (the order of an Object's members is the map's own). *)
Theorem read_back_round_trip d :
  unique_keys d = true ->
  exists k r, run init_state (tree_events d) = Continue (mk_state [] k (Some r)) /\
    json_equiv r d.
Proof.
  intros Hu.
  cut (exists k, run init_state (tree_events d) = Continue (mk_state [] k (Some d))).
  { intros [k H]; exists k, d; split; [exact H|apply json_equiv_refl]. }
  destruct d as [| | | | | m | a]; try (exists ""; reflexivity).
  - simpl in Hu; apply andb_prop in Hu as [Hnd Hum].
    assert (Hm : Forall (fun kv => builds (snd kv)) m)
      by (apply Forall_forall; intros; apply all_build).
    destruct (members_build m Hm Hnd Hum (fun y => y) [] [] "" [] slot_id
                (fun _ _ => eq_refl)) as [k1 H1].
    cbn beta in H1; exists k1.
    cbn [tree_events]; change (run init_state (EvStartMap :: ?l))
      with (run (mk_state [[]] "" (Some (JMap []))) l).
    rewrite run_app; lazymatch type of H1 with run ?st ?l = _ =>
      change (run _ (flat_map _ m)) with (run st l) end.
    rewrite H1; reflexivity.
  - simpl in Hu.
    assert (Ha : Forall builds a) by (apply Forall_forall; intros; apply all_build).
    destruct (items_build a Ha Hu (fun y => y) [] [] "" [] slot_id) as [k1 H1].
    cbn beta in H1; exists k1.
    cbn [tree_events]; change (run init_state (EvStartArray :: ?l))
      with (run (mk_state [[]] "" (Some (JArray []))) l).
    rewrite run_app; lazymatch type of H1 with run ?st ?l = _ =>
      change (run _ (flat_map _ a)) with (run st l) end.
    rewrite H1; reflexivity.
Qed.

Lemma read_back_round_trip_witness :
  exists k r,
    run init_state (tree_events (JMap [("a", JArray [JInteger 1; JNull]); ("b", JString "x")])) =
      Continue (mk_state [] k (Some r)) /\
    json_equiv r (JMap [("a", JArray [JInteger 1; JNull]); ("b", JString "x")]).
Proof.
  exact (read_back_round_trip (JMap [("a", JArray [JInteger 1; JNull]); ("b", JString "x")])
           eq_refl).
Defined.

(** ** The tree never holds two members under one key *)

Lemma keys_nodup_snoc ks k :
  keys_nodup ks = true -> ~ In k ks -> keys_nodup (ks ++ [k]) = true.
Proof.
  induction ks as [|k' ks IH]; simpl; intros Hnd Hin; [reflexivity|].
  apply andb_prop in Hnd as [Hk Hnd]; apply andb_true_intro; split; [|auto].
  rewrite existsb_app; simpl.
  destruct (String.eqb k' k) eqn:E; [apply String.eqb_eq in E; tauto|].
  now rewrite orb_false_r.
Qed.

Lemma map_find_None_not_In k m : map_find k m = None -> ~ In k (List.map fst m).
Proof.
  induction m as [|[k' v] m IH]; simpl; intros Hf; [tauto|].
  destruct (String.eqb k k') eqn:E; [discriminate|].
  apply String.eqb_neq in E; intros [->|Hin]; [congruence|now apply IH].
Qed.

Lemma map_find_In k m c : map_find k m = Some c -> In (k, c) m.
Proof.
  induction m as [|[k' v] m IH]; simpl; intros Hf; [discriminate|].
  destruct (String.eqb k k') eqn:E; [|auto].
  apply String.eqb_eq in E; subst k'; injection Hf as ->; auto.
Qed.

Lemma map_fst_update k g m : List.map fst (map_update k g m) = List.map fst m.
Proof.
  induction m as [|[k' v] m IH]; simpl; [reflexivity|].
  destruct (String.eqb k k'); simpl; congruence.
Qed.

Lemma unique_keys_child s d c :
  unique_keys d = true -> child s d = Some c -> unique_keys c = true.
Proof.
  intros Hu Hc; destruct s as [i|k], d; simpl in *; try discriminate.
  - rewrite forallb_forall in Hu; apply Hu; eapply nth_error_In; eauto.
  - apply andb_prop in Hu as [_ Hu]; rewrite forallb_forall in Hu.
    exact (Hu _ (map_find_In _ _ _ Hc)).
Qed.

Lemma unique_keys_deref p d c :
  unique_keys d = true -> deref p d = Some c -> unique_keys c = true.
Proof.
  revert d; induction p as [|s p IH]; intros d Hu Hp; simpl in Hp.
  - now injection Hp as <-.
  - destruct (child s d) as [c'|] eqn:Hc; [|discriminate].
    apply (IH c'); [exact (unique_keys_child _ _ _ Hu Hc)|exact Hp].
Qed.

Lemma forallb_list_update i g a :
  forallb unique_keys a = true ->
  (forall x, nth_error a i = Some x -> unique_keys (g x) = true) ->
  forallb unique_keys (list_update i g a) = true.
Proof.
  revert i; induction a as [|x a IH]; intros [|i] Hu Hg; simpl in *; auto;
    apply andb_prop in Hu as [Hx Ha]; apply andb_true_intro; auto.
Qed.

Lemma forallb_map_update k g m :
  forallb (fun '(_, v) => unique_keys v) m = true ->
  (forall x, map_find k m = Some x -> unique_keys (g x) = true) ->
  forallb (fun '(_, v) => unique_keys v) (map_update k g m) = true.
Proof.
  induction m as [|[k' v] m IH]; intros Hu Hg; simpl in *; auto.
  apply andb_prop in Hu as [Hv Hm].
  destruct (String.eqb k k'); simpl; apply andb_true_intro; auto.
Qed.

Lemma unique_keys_update_child s g d :
  unique_keys d = true ->
  (forall c, child s d = Some c -> unique_keys (g c) = true) ->
  unique_keys (update_child s g d) = true.
Proof.
  intros Hu Hg; destruct s as [i|k], d; simpl in *; auto.
  - now apply forallb_list_update.
  - apply andb_prop in Hu as [Hnd Hm]; rewrite map_fst_update, Hnd; simpl.
    now apply forallb_map_update.
Qed.

Lemma unique_keys_modify f p d :
  unique_keys d = true ->
  (forall x, deref p d = Some x -> unique_keys (f x) = true) ->
  unique_keys (modify f p d) = true.
Proof.
  revert d; induction p as [|s p IH]; intros d Hu Hf; simpl in *.
  - now apply Hf.
  - apply unique_keys_update_child; [exact Hu|]; intros c Hc.
    apply IH; [exact (unique_keys_child _ _ _ Hu Hc)|].
    intros x Hx; apply Hf; now rewrite Hc.
Qed.

Lemma unique_keys_map_emplace k v m :
  unique_keys (JMap m) = true -> unique_keys v = true ->
  unique_keys (JMap (map_emplace k v m)) = true.
Proof.
  unfold map_emplace; destruct (map_find k m) eqn:Hf; [auto|].
  simpl; intros Hu Hv; apply andb_prop in Hu as [Hnd Hm].
  rewrite map_app, forallb_app; simpl.
  rewrite (keys_nodup_snoc _ _ Hnd (map_find_None_not_In _ _ Hf)), Hm, Hv; reflexivity.
Qed.

Lemma insert_unique_keys st v st' p :
  insert st v = Some (st', p) -> unique_keys v = true ->
  (forall r, root st = Some r -> unique_keys r = true) ->
  forall r', root st' = Some r' -> unique_keys r' = true.
Proof.
  unfold insert; intros Hi Hv Hroot.
  destruct (root st) as [r|] eqn:Hr.
  - specialize (Hroot r eq_refl).
    destruct (stack st) as [|current rest]; [discriminate|].
    destruct (deref current r) as [[]|] eqn:Hd; try discriminate;
      injection Hi as <- <-; intros r' Hr'; injection Hr' as <-;
      apply unique_keys_modify; auto; intros x Hx; rewrite Hd in Hx; injection Hx as <-.
    + apply unique_keys_map_emplace; [exact (unique_keys_deref _ _ _ Hroot Hd)|exact Hv].
    + pose proof (unique_keys_deref _ _ _ Hroot Hd) as Ha; simpl in *.
      rewrite forallb_app, Ha; simpl; now rewrite Hv.
  - injection Hi as <- <-; intros r' Hr'; injection Hr' as <-; exact Hv.
Qed.

(** In every state the builder reaches, no Object of the tree has two
    members with one key: an [emplace] under a present key leaves the
    Object as it was. *)
Theorem reachable_unique_keys st r :
  reachable st -> root st = Some r -> unique_keys r = true.
Proof.
  intros Hst; revert r; induction Hst as [|st ev st' _ IH Hstep]; [discriminate|].
  destruct (event_value ev) as [v|] eqn:Hv.
  - rewrite (step_value _ _ _ Hv) in Hstep.
    destruct (insert st v) as [[st1 p1]|] eqn:Hi; [|discriminate].
    assert (Huv : unique_keys v = true)
      by (destruct ev; simpl in Hv; try discriminate; injection Hv as <-; reflexivity).
    pose proof (insert_unique_keys _ _ _ _ Hi Huv IH) as H1.
    destruct (is_begin_event ev); injection Hstep as <-; exact H1.
  - rewrite (step_other _ _ Hv) in Hstep.
    destruct ev; try discriminate; unfold end_cb in Hstep;
      [injection Hstep as <- | destruct (stack st); [discriminate|]; injection Hstep as <-
      | destruct (stack st); [discriminate|]; injection Hstep as <-];
      exact IH.
Qed.

Lemma reachable_unique_keys_witness :
  reachable (mk_state [] "k" (Some (JMap [("k", JInteger 1)]))) /\
  unique_keys (JMap [("k", JInteger 1)]) = true.
Proof.
  assert (H : reachable (mk_state [] "k" (Some (JMap [("k", JInteger 1)]))))
    by exact (reachable_run init_state ev_dup_keys _ reachable_init eq_refl).
  split; [exact H|].
  exact (reachable_unique_keys _ (JMap [("k", JInteger 1)]) H eq_refl).
Defined.

(** ** The first failing primitive ends [generate_json] *)

Lemma emit_all_first_error {G} (call : gen_token -> G -> yajl_gen_status * G) ts gen s g :
  emit_all call ts gen = (s, g) -> status_ok s = false ->
  exists pre t post g0, ts = pre ++ t :: post /\
    emit_all call pre gen = (yajl_gen_status_ok, g0) /\ call t g0 = (s, g).
Proof.
  revert gen; induction ts as [|t ts IH]; intros gen Hrun Hs; simpl in Hrun.
  - injection Hrun as <- <-; discriminate.
  - destruct (call t gen) as [s1 g1] eqn:Hc; destruct (status_ok s1) eqn:E; simpl in Hrun.
    + destruct (IH g1 Hrun Hs) as (pre & t' & post & g0 & -> & Hpre & Ht').
      exists (t :: pre), t', post, g0; split; [reflexivity|]; split; [|exact Ht'].
      simpl; rewrite Hc, E; exact Hpre.
    + injection Hrun as <- <-; exists [], t, ts, gen; repeat split; auto.
Qed.

(** When [generate_json] returns a status other than
    [yajl_gen_status_ok], it is the status of a primitive of [render d]
    made after all the primitives before it succeeded; none of the
    primitives after it is made. *)
Theorem generate_json_first_error {G} (call : gen_token -> G -> yajl_gen_status * G) d gen s g :
  generate_json G call d gen = (s, g) -> status_ok s = false ->
  exists pre t post g0, render d = pre ++ t :: post /\
    emit_all call pre gen = (yajl_gen_status_ok, g0) /\ call t g0 = (s, g).
Proof.
  rewrite generate_json_render; apply emit_all_first_error.
Qed.

Lemma generate_json_first_error_witness :
  exists pre t post g0,
    render (JArray [JNull; JString "x"; JNull]) = pre ++ t :: post /\
    emit_all reject_strings pre 0 = (yajl_gen_status_ok, g0) /\
    reject_strings t g0 = (yajl_gen_invalid_string, 2).
Proof.
  exact (generate_json_first_error reject_strings (JArray [JNull; JString "x"; JNull]) 0
           yajl_gen_invalid_string 2 eq_refl eq_refl).
Defined.
